(** * Source ranges of the ASTScope tree

    A shallow embedding of [lib/AST/ASTScopeSourceRange.cpp]: the per-kind
    childless-range rules, the recomputation of a scope's range from its
    children, the range cache with its invalidation, the structural
    validator, and the widening for ignored AST nodes. *)

From Stdlib Require Import NArith String.
From stdpp Require Import base option list gmap.

Set Warnings "-register-all".
Local Open Scope N_scope.

(** ** Locations and ranges *)

(** Modelled from the spec: [SourceLoc] is declared in swift/Basic/SourceLoc.h,
    which is not part of this file.  The spec asks for a totally ordered
    location type with an invalid sentinel; a location is a position in the
    source buffer (a character pointer), and the default-constructed location
    is the null one. *)
Record SourceLoc := mkLoc { Value : N }.

Definition noLoc : SourceLoc := mkLoc 0.

Definition isValidLoc (l : SourceLoc) : bool := negb (Value l =? 0).
Definition isInvalidLoc (l : SourceLoc) : bool := negb (isValidLoc l).

Record SourceRange := mkRange { Start : SourceLoc; End : SourceLoc }.

(** [SourceRange()] and [SourceRange(SourceLoc)]. *)
Definition noRange : SourceRange := mkRange noLoc noLoc.
Definition rangeOfLoc (l : SourceLoc) : SourceRange := mkRange l l.

(** [SourceRange::isValid]: a range is valid when its start is; the two
    endpoints of a range built by the compiler are valid together. *)
Definition isValid (r : SourceRange) : bool := isValidLoc (Start r).
Definition isInvalid (r : SourceRange) : bool := negb (isValid r).

(** Modelled from the spec: [SourceManager::isBeforeInBuffer], the strict
    total order on the locations of one buffer; it compares positions, so
    the null location lies before every valid one. *)
Definition isBeforeInBuffer (first second : SourceLoc) : bool :=
  Value first <? Value second.

(** Modelled from the spec: [SourceRange::widen], "union of two valid ranges
    is {min(start), max(end)}".  The receiver's start is replaced when the
    other start lies before it, its end when the other end lies after it;
    nothing else is looked at, so a receiver without a valid start keeps
    its start. *)
Definition widen (r other : SourceRange) : SourceRange :=
  mkRange (if isBeforeInBuffer (Start other) (Start r) then Start other else Start r)
          (if isBeforeInBuffer (End r) (End other) then End other else End r).

(** Modelled from the spec: [SourceManager::rangeContainsTokenLoc] and
    [SourceManager::rangeContains], "does range A fully contain range B".
    The enclosing range contains a location that is one of its ends or lies
    between them, and it contains a range when it contains both of its ends;
    for an inner range whose start is not after its end this is the spec's
    "A.start <= B.start and B.end <= A.end (non-strict)", and an inner range
    with its ends the other way round is contained only when both ends lie
    within the enclosing range. *)
Definition rangeContainsTokenLoc (range : SourceRange) (loc : SourceLoc) : bool :=
  (Value loc =? Value (Start range)) || (Value loc =? Value (End range))
  || (isBeforeInBuffer (Start range) loc && isBeforeInBuffer loc (End range)).

Definition rangeContains (enclosing inner : SourceRange) : bool :=
  rangeContainsTokenLoc enclosing (Start inner)
  && rangeContainsTokenLoc enclosing (End inner).

(** ** Outcomes of fallible code

    Assertions, [llvm_unreachable] and [abort()] end the computation; they
    are kept apart from ordinary results. *)

Definition ScopeId := nat.

(** What [verificationError()] prints before [abort()]. *)
Inductive ChildrenReport :=
| OnlyChild (child : ScopeId)
| FirstAndLastChild (first last : ScopeId).

Inductive Report :=
| ChildrenNotContained (kids : ChildrenReport) (parentNode : ScopeId)
| OutOfOrderNodes (penultimate last : ScopeId) (parentNode : ScopeId).

Inductive Fault :=
| AssertionFailed (msg : string)
| Unreachable (msg : string)
| Aborted (r : Report)
| BadIndex
| BadPointer
| OutOfFuel.

Inductive Outcome (A : Type) :=
| Ok (a : A)
| Fatal (f : Fault).
Arguments Ok {A} a.
Arguments Fatal {A} f.

Global Instance Outcome_ret : MRet Outcome := fun _ a => Ok a.
Global Instance Outcome_bind : MBind Outcome := fun _ _ k m =>
  match m with
  | Ok a => k a
  | Fatal f => Fatal f
  end.

Definition assertion (b : bool) (msg : string) : Outcome unit :=
  if b then Ok tt else Fatal (AssertionFailed msg).

(** Indexing an [ArrayRef] out of range. *)
Definition at_index {A} (l : list A) (i : nat) : Outcome A :=
  match l !! i with
  | Some a => Ok a
  | None => Fatal BadIndex
  end.

(** ** The syntax the scopes wrap

    Syntax nodes are owned elsewhere; a scope consults only their location
    accessors, which are the fields below. *)

Record BraceStmt := mkBraceStmt { LBraceLoc : SourceLoc; RBraceLoc : SourceLoc }.

Definition braceStartLoc (b : BraceStmt) : SourceLoc := LBraceLoc b.
Definition braceEndLoc (b : BraceStmt) : SourceLoc := RBraceLoc b.
Definition braceSourceRange (b : BraceStmt) : SourceRange :=
  mkRange (LBraceLoc b) (RBraceLoc b).

Record ParamDecl := mkParamDecl { paramStartLoc : SourceLoc }.

(** [getParameters()] may be null and [getBody()] may be null. *)
Record ClosureExpr := mkClosureExpr {
  closureParameters : option (list ParamDecl);
  closureInLoc : SourceLoc;
  closureBody : option BraceStmt;
  closureStartLoc : SourceLoc;
  closureEndLoc : SourceLoc }.

Definition closureSourceRange (c : ClosureExpr) : SourceRange :=
  mkRange (closureStartLoc c) (closureEndLoc c).

Record CaptureListExpr := mkCaptureListExpr {
  captureStartLoc : SourceLoc;
  captureClosureBody : ClosureExpr }.

(** The holder of a generic parameter list; [protocolBraces] is present
    exactly when the holder is a [ProtocolDecl]. *)
Record GenericHolder := mkGenericHolder {
  protocolBraces : option SourceRange;
  holderStartLoc : SourceLoc;
  holderEndLoc : SourceLoc }.

Record GenericTypeParamDecl := mkGenericTypeParamDecl { genericParamEndLoc : SourceLoc }.

Record PatternBindingEntry := mkPatternBindingEntry {
  entrySourceRange : SourceRange;
  entrySourceRangeOmitAccessors : SourceRange;
  entryInitAsWrittenRange : SourceRange }.

Inductive ConditionKind := CK_Boolean | CK_Availability | CK_PatternBinding.

Record StmtConditionElement := mkStmtConditionElement {
  condKind : ConditionKind;
  condStartLoc : SourceLoc }.

(** [while] and [guard] statements: the condition list and the body. *)
Record LabeledConditionalStmt := mkLabeledConditionalStmt {
  stmtCond : list StmtConditionElement;
  stmtBody : BraceStmt }.

Record IfStmt := mkIfStmt {
  ifCond : list StmtConditionElement;
  ifThenStmt : BraceStmt }.

Record ForEachStmt := mkForEachStmt {
  forEachWhereStartLoc : option SourceLoc;
  forEachBody : BraceStmt }.

Record CatchStmt := mkCatchStmt {
  catchHasGuardExpr : bool;
  catchWhereLoc : SourceLoc;
  catchBody : BraceStmt }.

(** One entry per case label item: the start of its guard expression. *)
Record CaseStmt := mkCaseStmt {
  caseLabelItemGuards : list (option SourceLoc);
  caseBody : BraceStmt }.

Inductive FunctionOrSubscript :=
| FnAccessor (loc : SourceLoc)
| FnDestructor (nameLoc : SourceLoc)
| FnSubscript (indicesLParenLoc : SourceLoc)
| FnOther (parametersLParenLoc : SourceLoc).

Record AbstractFunctionDecl := mkAbstractFunctionDecl {
  fnRangeIncludingAttrs : SourceRange;
  fnBodyRange : SourceRange }.

Inductive GTXDeclKind := NominalType | Extension | OtherContext.

Record GenericContextDecl := mkGenericContextDecl {
  gtxDeclKind : GTXDeclKind;
  gtxRangeIncludingAttrs : SourceRange;
  gtxSourceRange : SourceRange;
  gtxBraces : SourceRange;
  gtxTrailingWhereRange : SourceRange }.

Inductive Portion := GTXWholePortion | GTXWherePortion | IterableTypeBodyPortion.

Record SourceFile := mkSourceFile {
  bufferRange : option SourceRange;
  fileDecls : list SourceRange }.

(** ** Childless ranges, one rule per scope class *)

(** [getStartOfFirstParam] (static helper at the end of the file). *)
Definition getStartOfFirstParam (closure : ClosureExpr) : SourceLoc :=
  match closureParameters closure with
  | Some (p0 :: _) => paramStartLoc p0
  | _ =>
    if isValidLoc (closureInLoc closure) then closureInLoc closure
    else match closureBody closure with
         | Some body => LBraceLoc body
         | None => closureStartLoc closure
         end
  end.

Module PatternEntryUseScope.
Definition getChildlessSourceRange
    (entry : PatternBindingEntry) (initializerEnd : SourceLoc) : SourceRange :=
  let range := mkRange (End (entrySourceRangeOmitAccessors entry))
                       (End (entrySourceRange entry)) in
  if isValidLoc initializerEnd then
    let range := widen range (rangeOfLoc initializerEnd) in
    mkRange initializerEnd (End range)
  else range.
End PatternEntryUseScope.

Module GenericParamScope.
Definition getChildlessSourceRange
    (holder : GenericHolder) (paramList : list GenericTypeParamDecl) (index : nat)
  : Outcome SourceRange :=
  match protocolBraces holder with
  | Some braces => Ok (mkRange (Start braces) (holderEndLoc holder))
  | None =>
    param ← at_index paramList index;
    let startLoc := genericParamEndLoc param in
    let startLoc := if isInvalidLoc startLoc then holderStartLoc holder else startLoc in
    Ok (mkRange startLoc (holderEndLoc holder))
  end.
End GenericParamScope.

Module ASTSourceFileScope.
Definition getChildlessSourceRange (SF : SourceFile) : SourceRange :=
  match bufferRange SF with
  | Some charRange => mkRange (Start charRange) (End charRange)
  | None =>
    match head (fileDecls SF), last (fileDecls SF) with
    | Some front, Some back => mkRange (Start front) (End back)
    | _, _ => noRange
    end
  end.
End ASTSourceFileScope.

Module GTXScope.
Definition getChildlessSourceRangeOf (portion : Portion) (d : GenericContextDecl)
  : Outcome SourceRange :=
  match portion with
  | GTXWholePortion =>
    let r := gtxRangeIncludingAttrs d in
    if isValidLoc (Start r) then
      _ ← assertion (isValidLoc (End r)) "r.End.isValid()"; Ok r
    else Ok (gtxSourceRange d)
  | GTXWherePortion => Ok (gtxTrailingWhereRange d)
  | IterableTypeBodyPortion =>
    match gtxDeclKind d with
    | NominalType | Extension => Ok (gtxBraces d)
    | OtherContext => Fatal (Unreachable "No body!")
    end
  end.
End GTXScope.

Module AbstractFunctionDeclScope.
Definition getChildlessSourceRange (decl : AbstractFunctionDecl) : Outcome SourceRange :=
  let r := fnRangeIncludingAttrs decl in
  if isValidLoc (Start r) then
    _ ← assertion (isValidLoc (End r)) "r.End.isValid()"; Ok r
  else Ok (fnBodyRange decl).
End AbstractFunctionDeclScope.

Module AbstractFunctionParamsScope.
Definition getChildlessSourceRange (fn : FunctionOrSubscript) (endLoc : SourceLoc)
  : Outcome SourceRange :=
  let startLoc :=
    match fn with
    | FnAccessor loc => loc
    | FnDestructor nameLoc => nameLoc
    | FnSubscript lParenLoc => lParenLoc
    | FnOther lParenLoc => lParenLoc
    end in
  _ ← assertion (isValidLoc startLoc) "startLoc.isValid()";
  Ok (mkRange startLoc endLoc).
End AbstractFunctionParamsScope.

Module ForEachPatternScope.
Definition getChildlessSourceRange (stmt : ForEachStmt) : SourceRange :=
  match forEachWhereStartLoc stmt with
  | Some whereStart => mkRange whereStart (braceEndLoc (forEachBody stmt))
  | None => braceSourceRange (forEachBody stmt)
  end.
End ForEachPatternScope.

Module CatchStmtScope.
Definition getChildlessSourceRange (stmt : CatchStmt) : SourceRange :=
  if catchHasGuardExpr stmt
  then mkRange (catchWhereLoc stmt) (braceEndLoc (catchBody stmt))
  else braceSourceRange (catchBody stmt).
End CatchStmtScope.

Module CaseStmtScope.
Fixpoint firstGuard (items : list (option SourceLoc)) : option SourceLoc :=
  match items with
  | [] => None
  | Some guardStart :: _ => Some guardStart
  | None :: rest => firstGuard rest
  end.

Definition getChildlessSourceRange (stmt : CaseStmt) : SourceRange :=
  match firstGuard (caseLabelItemGuards stmt) with
  | Some guardStart => mkRange guardStart (braceEndLoc (caseBody stmt))
  | None => braceSourceRange (caseBody stmt)
  end.
End CaseStmtScope.

Module BraceStmtScope.
Definition getChildlessSourceRange
    (parentClosureIfAny : option ClosureExpr) (stmt : BraceStmt) : SourceRange :=
  match parentClosureIfAny with
  | Some closure =>
    if isValidLoc (closureInLoc closure)
    then mkRange (closureInLoc closure) (braceEndLoc stmt)
    else braceSourceRange stmt
  | None => braceSourceRange stmt
  end.
End BraceStmtScope.

Module ConditionalClauseScope.
(** The start location, if the condition can provide it. *)
Definition startLocAccordingToCondition
    (conditionals : list StmtConditionElement) (index : nat) : Outcome SourceLoc :=
  cond ← at_index conditionals index;
  match condKind cond with
  | CK_Boolean | CK_Availability => Ok (condStartLoc cond)
  | CK_PatternBinding =>
    if bool_decide (index + 1 < length conditionals)%nat
    then next ← at_index conditionals (index + 1); Ok (condStartLoc next)
    else Ok noLoc
  end.
End ConditionalClauseScope.

Module WhileConditionalClauseScope.
Definition getChildlessSourceRange (stmt : LabeledConditionalStmt) (index : nat)
  : Outcome SourceRange :=
  startLoc ← ConditionalClauseScope.startLocAccordingToCondition (stmtCond stmt) index;
  let startLoc := if isInvalidLoc startLoc then braceStartLoc (stmtBody stmt) else startLoc in
  Ok (mkRange startLoc (braceEndLoc (stmtBody stmt))).
End WhileConditionalClauseScope.

Module IfConditionalClauseScope.
Definition getChildlessSourceRange (stmt : IfStmt) (index : nat) : Outcome SourceRange :=
  startLoc ← ConditionalClauseScope.startLocAccordingToCondition (ifCond stmt) index;
  let startLoc := if isInvalidLoc startLoc then braceStartLoc (ifThenStmt stmt) else startLoc in
  Ok (mkRange startLoc (braceEndLoc (ifThenStmt stmt))).
End IfConditionalClauseScope.

Module GuardConditionalClauseScope.
Definition getChildlessSourceRange (stmt : LabeledConditionalStmt) (index : nat)
  : Outcome SourceRange :=
  startLoc ← ConditionalClauseScope.startLocAccordingToCondition (stmtCond stmt) index;
  let startLoc := if isInvalidLoc startLoc then braceStartLoc (stmtBody stmt) else startLoc in
  Ok (mkRange startLoc (braceStartLoc (stmtBody stmt))).
End GuardConditionalClauseScope.

Module GuardContinuationScope.
Definition getChildlessSourceRange (stmt : LabeledConditionalStmt) : SourceRange :=
  rangeOfLoc (braceEndLoc (stmtBody stmt)).
End GuardContinuationScope.

Module CaptureListScope.
Definition getChildlessSourceRange (expr : CaptureListExpr) : SourceRange :=
  mkRange (captureStartLoc expr) (getStartOfFirstParam (captureClosureBody expr)).
End CaptureListScope.

Module ClosureParametersScope.
Definition getChildlessSourceRange (closureExpr : ClosureExpr) : Outcome SourceRange :=
  _ ← assertion (isValidLoc (closureInLoc closureExpr))
                "We don't create these if no in loc";
  Ok (mkRange (getStartOfFirstParam closureExpr) (closureInLoc closureExpr)).
End ClosureParametersScope.

Module ClosureBodyScope.
Definition getChildlessSourceRange (closureExpr : ClosureExpr) : SourceRange :=
  if isValidLoc (closureInLoc closureExpr)
  then mkRange (closureInLoc closureExpr) (closureEndLoc closureExpr)
  else closureSourceRange closureExpr.
End ClosureBodyScope.

(** The dynamic class of a scope together with the syntax it refers to.
    Classes whose rule returns a range of their syntax node unchanged carry
    that range. *)
Inductive ScopeKind :=
| SpecializeAttributeK (attrRange : SourceRange)
| AbstractFunctionBodyK (bodySourceRange : SourceRange)
| StatementConditionElementPatternK (patternRange : SourceRange)
| TopLevelCodeK (declRange : SourceRange)
| SubscriptDeclK (declRange : SourceRange)
| WholeClosureK (closureExpr : ClosureExpr)
| AbstractStmtK (stmtRange : SourceRange)
| DefaultArgumentInitializerK (defaultValueRange : SourceRange)
| PatternEntryDeclK (entry : PatternBindingEntry)
| PatternEntryInitializerK (entry : PatternBindingEntry)
| PatternEntryUseK (entry : PatternBindingEntry) (initializerEnd : SourceLoc)
| VarDeclK (bracesRange : SourceRange)
| GenericParamK (holder : GenericHolder) (paramList : list GenericTypeParamDecl) (index : nat)
| ASTSourceFileK (SF : SourceFile)
| GTXK (portion : Portion) (decl : GenericContextDecl)
| AbstractFunctionDeclK (decl : AbstractFunctionDecl)
| AbstractFunctionParamsK (fn : FunctionOrSubscript) (endLoc : SourceLoc)
| ForEachPatternK (stmt : ForEachStmt)
| CatchStmtK (stmt : CatchStmt)
| CaseStmtK (stmt : CaseStmt)
| BraceStmtK (parentClosureIfAny : option ClosureExpr) (stmt : BraceStmt)
| WhileConditionalClauseK (stmt : LabeledConditionalStmt) (index : nat)
| IfConditionalClauseK (stmt : IfStmt) (index : nat)
| GuardConditionalClauseK (stmt : LabeledConditionalStmt) (index : nat)
| GuardContinuationK (stmt : LabeledConditionalStmt)
| CaptureListK (expr : CaptureListExpr)
| ClosureParametersK (closureExpr : ClosureExpr)
| ClosureBodyK (closureExpr : ClosureExpr)
| AttachedPropertyDelegateK (customAttributesRange : SourceRange).

(** The virtual [getChildlessSourceRange]. *)
Definition getChildlessSourceRange (k : ScopeKind) : Outcome SourceRange :=
  match k with
  | SpecializeAttributeK r | AbstractFunctionBodyK r
  | StatementConditionElementPatternK r | TopLevelCodeK r | SubscriptDeclK r
  | AbstractStmtK r | DefaultArgumentInitializerK r | VarDeclK r
  | AttachedPropertyDelegateK r => Ok r
  | WholeClosureK c => Ok (closureSourceRange c)
  | PatternEntryDeclK e => Ok (entrySourceRange e)
  | PatternEntryInitializerK e => Ok (entryInitAsWrittenRange e)
  | PatternEntryUseK e initializerEnd =>
    Ok (PatternEntryUseScope.getChildlessSourceRange e initializerEnd)
  | GenericParamK holder paramList index =>
    GenericParamScope.getChildlessSourceRange holder paramList index
  | ASTSourceFileK SF => Ok (ASTSourceFileScope.getChildlessSourceRange SF)
  | GTXK portion d => GTXScope.getChildlessSourceRangeOf portion d
  | AbstractFunctionDeclK d => AbstractFunctionDeclScope.getChildlessSourceRange d
  | AbstractFunctionParamsK fn endLoc =>
    AbstractFunctionParamsScope.getChildlessSourceRange fn endLoc
  | ForEachPatternK s => Ok (ForEachPatternScope.getChildlessSourceRange s)
  | CatchStmtK s => Ok (CatchStmtScope.getChildlessSourceRange s)
  | CaseStmtK s => Ok (CaseStmtScope.getChildlessSourceRange s)
  | BraceStmtK c s => Ok (BraceStmtScope.getChildlessSourceRange c s)
  | WhileConditionalClauseK s i => WhileConditionalClauseScope.getChildlessSourceRange s i
  | IfConditionalClauseK s i => IfConditionalClauseScope.getChildlessSourceRange s i
  | GuardConditionalClauseK s i => GuardConditionalClauseScope.getChildlessSourceRange s i
  | GuardContinuationK s => Ok (GuardContinuationScope.getChildlessSourceRange s)
  | CaptureListK e => Ok (CaptureListScope.getChildlessSourceRange e)
  | ClosureParametersK c => ClosureParametersScope.getChildlessSourceRange c
  | ClosureBodyK c => Ok (ClosureBodyScope.getChildlessSourceRange c)
  end.

(** ** The scope tree

    A parent owns its children and a child points back at its parent; the
    nodes live in a store indexed by [ScopeId], so that both directions can
    be followed and a cached range can be updated in place. *)

Record ASTScopeImpl := mkScope {
  scopeKind : ScopeKind;
  parent : option ScopeId;
  storedChildren : list ScopeId;
  cachedSourceRange : option SourceRange;
  sourceRangeOfIgnoredASTNodes : SourceRange }.

Definition setCachedSourceRange (c : option SourceRange) (n : ASTScopeImpl) : ASTScopeImpl :=
  mkScope (scopeKind n) (parent n) (storedChildren n) c (sourceRangeOfIgnoredASTNodes n).

Definition setSourceRangeOfIgnoredASTNodes (r : SourceRange) (n : ASTScopeImpl) : ASTScopeImpl :=
  mkScope (scopeKind n) (parent n) (storedChildren n) (cachedSourceRange n) r.

Abbreviation ScopeTree := (gmap ScopeId ASTScopeImpl).

Definition deref (T : ScopeTree) (s : ScopeId) : Outcome ASTScopeImpl :=
  match T !! s with
  | Some n => Ok n
  | None => Fatal BadPointer
  end.

(** ** Cached and uncached ranges *)

Definition getSourceRange (T : ScopeTree) (self : ScopeId) (forDebugging : bool)
  : Outcome SourceRange :=
  this ← deref T self;
  match cachedSourceRange this with
  | None =>
    if forDebugging then Ok noRange
    else Fatal (AssertionFailed "should have been cached after last expandMe")
  | Some r => Ok r
  end.

Definition getUncachedSourceRange (T : ScopeTree) (self : ScopeId) (forDebugging : bool)
  : Outcome SourceRange :=
  this ← deref T self;
  childlessRange ← getChildlessSourceRange (scopeKind this);
  let childlessRange :=
    if isValid (sourceRangeOfIgnoredASTNodes this)
    then widen childlessRange (sourceRangeOfIgnoredASTNodes this)
    else childlessRange in
  match head (storedChildren this), last (storedChildren this) with
  | Some front, Some back =>
    frontRange ← getSourceRange T front forDebugging;
    let childStart := Start frontRange in
    _ ← assertion (forDebugging || isValidLoc childStart)
                  "forDebugging || childStart.isValid()";
    backRange ← getSourceRange T back forDebugging;
    let childEnd := End backRange in
    let childRange := mkRange childStart childEnd in
    if isInvalidLoc (Start childlessRange) then Ok childRange
    else Ok (widen childRange childlessRange)
  | _, _ =>
    _ ← assertion (isValidLoc (Start childlessRange)) "childlessRange.Start.isValid()";
    Ok childlessRange
  end.

(** ** Validation *)

Definition hasValidSourceRange (T : ScopeTree) (self : ScopeId) : Outcome bool :=
  sourceRange ← getSourceRange T self false;
  Ok (isValidLoc (Start sourceRange) && isValidLoc (End sourceRange)
      && negb (isBeforeInBuffer (End sourceRange) (Start sourceRange))).

Definition precedesInSource (T : ScopeTree) (self next : ScopeId) : Outcome bool :=
  mine ← hasValidSourceRange T self;
  if negb mine then Ok false else
  theirs ← hasValidSourceRange T next;
  if negb theirs then Ok false else
  nextRange ← getSourceRange T next false;
  myRange ← getSourceRange T self false;
  Ok (negb (isBeforeInBuffer (Start nextRange) (End myRange))).

Definition verifyThatChildrenAreContained (T : ScopeTree) (self : ScopeId) : Outcome bool :=
  this ← deref T self;
  match head (storedChildren this), last (storedChildren this) with
  | Some front, Some back =>
    frontRange ← getSourceRange T front false;
    backRange ← getSourceRange T back false;
    let rangeOfChildren := mkRange (Start frontRange) (End backRange) in
    myRange ← getSourceRange T self false;
    if rangeContains myRange rangeOfChildren then Ok true
    else Fatal (Aborted (ChildrenNotContained
                  (if bool_decide (length (storedChildren this) = 1%nat)
                   then OnlyChild front else FirstAndLastChild front back)
                  self))
  | _, _ => Ok true
  end.

(** The loop of [getPriorSibling]: indices [i-1], ..., [0] are tried in turn. *)
Fixpoint findMyIndex (self : ScopeId) (siblingsAndMe : list ScopeId) (i : nat) : option nat :=
  match i with
  | O => None
  | S j =>
    if bool_decide (siblingsAndMe !! j = Some self) then Some j
    else findMyIndex self siblingsAndMe j
  end.

Definition getPriorSibling (T : ScopeTree) (self : ScopeId) : Outcome (option ScopeId) :=
  this ← deref T self;
  match parent this with
  | None => Ok None
  | Some p =>
    parentNode ← deref T p;
    let siblingsAndMe := storedChildren parentNode in
    match findMyIndex self siblingsAndMe (length siblingsAndMe)
          return Outcome (option ScopeId) with
    | None => Fatal (AssertionFailed "I have been disowned!")
    | Some O => Ok None
    | Some (S prior) => sibling ← at_index siblingsAndMe prior; Ok (Some sibling)
    end
  end.

Definition verifyThatThisNodeComeAfterItsPriorSibling (T : ScopeTree) (self : ScopeId)
  : Outcome bool :=
  priorSibling ← getPriorSibling T self;
  match priorSibling with
  | None => Ok true
  | Some prior =>
    inOrder ← precedesInSource T prior self;
    if (inOrder : bool) then Ok true
    else
      this ← deref T self;
      match parent this with
      | Some p => Fatal (Aborted (OutOfOrderNodes prior self p))
      | None => Fatal BadPointer
      end
  end.

Definition verifySourceRange (T : ScopeTree) (self : ScopeId) : Outcome bool :=
  contained ← verifyThatChildrenAreContained T self;
  if (contained : bool) then verifyThatThisNodeComeAfterItsPriorSibling T self
  else Ok false.

(** ** Source range caching *)

(** [cachedSourceRange = getUncachedSourceRange(); verifySourceRange();]
    The store is returned with the new cache entry when the verification
    comes back. *)
Definition cacheSourceRange (T : ScopeTree) (self : ScopeId) : Outcome ScopeTree :=
  r ← getUncachedSourceRange T self false;
  this ← deref T self;
  let T' := <[self := setCachedSourceRange (Some r) this]> T in
  _ ← verifySourceRange T' self;
  Ok T'.

(** [cachedSourceRange = SourceLoc();] the right-hand side is a location, so
    what is stored in the optional is the range made from it by
    [SourceRange(SourceLoc)]. *)
Definition clearSourceRangeCache (T : ScopeTree) (self : ScopeId) : Outcome ScopeTree :=
  this ← deref T self;
  Ok (<[self := setCachedSourceRange (Some (rangeOfLoc noLoc)) this]> T).

(** The two walks up the parent chain.  The recursion follows parent
    pointers, so it is bounded by a number of steps. *)
Fixpoint cacheSourceRangesOfAncestors (fuel : nat) (T : ScopeTree) (self : ScopeId)
  : Outcome ScopeTree :=
  match fuel with
  | O => Fatal OutOfFuel
  | S fuel' =>
    T' ← cacheSourceRange T self;
    this ← deref T' self;
    match parent this with
    | Some p => cacheSourceRangesOfAncestors fuel' T' p
    | None => Ok T'
    end
  end.

Fixpoint clearCachedSourceRangesOfAncestors (fuel : nat) (T : ScopeTree) (self : ScopeId)
  : Outcome ScopeTree :=
  match fuel with
  | O => Fatal OutOfFuel
  | S fuel' =>
    T' ← clearSourceRangeCache T self;
    this ← deref T' self;
    match parent this with
    | Some p => clearCachedSourceRangesOfAncestors fuel' T' p
    | None => Ok T'
    end
  end.

(** ** Ignored nodes, interpolated string literals and editor placeholders *)

Inductive ExprKind :=
| InterpolatedStringLiteralExpr (trailingQuoteLoc : SourceLoc)
| EditorPlaceholderExpr (trailingAngleBracketLoc : SourceLoc)
| OtherExpr.

(** An expression with its three location accessors [getLoc], [getStartLoc]
    and [getEndLoc], and the expressions directly below it. *)
Inductive Expr :=
| mkExpr (kind : ExprKind) (loc startLoc endLoc : SourceLoc) (subs : list Expr).

Definition exprKind (e : Expr) : ExprKind := let (k, _, _, _, _) := e in k.
Definition exprLoc (e : Expr) : SourceLoc := let (_, l, _, _, _) := e in l.
Definition exprStartLoc (e : Expr) : SourceLoc := let (_, _, s, _, _) := e in s.
Definition exprEndLoc (e : Expr) : SourceLoc := let (_, _, _, x, _) := e in x.
Definition subExprs (e : Expr) : list Expr := let (_, _, _, _, l) := e in l.

Record Decl := mkDecl { declSourceRange : SourceRange }.
Record Stmt := mkStmt { stmtSourceRange : SourceRange }.

Inductive ASTNode :=
| DeclNode (d : Decl)
| StmtNode (s : Stmt)
| ExprNode (e : Expr).

Module EffectiveEndFinder.
(** The update of the member [end] made by [walkToExprPre]. *)
Definition walkToExprPre (end_ : SourceLoc) (E : Expr) : SourceLoc :=
  match exprKind E with
  | InterpolatedStringLiteralExpr trailingQuoteLoc =>
    if isInvalidLoc end_ || isBeforeInBuffer end_ trailingQuoteLoc
    then trailingQuoteLoc else end_
  | EditorPlaceholderExpr trailingAngleBracketLoc =>
    if isInvalidLoc end_ || isBeforeInBuffer end_ trailingAngleBracketLoc
    then trailingAngleBracketLoc else end_
  | OtherExpr => end_
  end.

(** Modelled from the spec: [Expr::walk] with the default [ASTWalker]
    callbacks is defined outside this file; "walking the expression's
    sub-tree" enters every expression of the subtree, parents before
    their children. *)
Fixpoint walk (E : Expr) (end_ : SourceLoc) : SourceLoc :=
  match E with
  | mkExpr _ _ _ _ subs =>
    fold_left (fun acc sub => walk sub acc) subs (walkToExprPre end_ E)
  end.

Definition getTrailingQuoteLoc (E : Expr) : SourceLoc := walk E noLoc.
End EffectiveEndFinder.

Definition getEffectiveSourceRange (n : ASTNode) : SourceRange :=
  match n with
  | DeclNode d => declSourceRange d
  | StmtNode s => stmtSourceRange s
  | ExprNode e =>
    let trailing := EffectiveEndFinder.getTrailingQuoteLoc e in
    mkRange (exprLoc e) (if isValidLoc trailing then trailing else exprEndLoc e)
  end.

Section IgnoredNodes.
(** [AbstractPatternEntryScope::isCreatedDirectly] belongs to the tree
    construction; it tells whether the node is about to get a pattern
    scope of its own. *)
Variable isCreatedDirectly : ASTNode -> bool.

Definition widenSourceRangeForIgnoredASTNode (n : ASTNode) (this : ASTScopeImpl)
  : ASTScopeImpl :=
  if isCreatedDirectly n then this else
  let r := getEffectiveSourceRange n in
  if isInvalid r then this else
  if isInvalid (sourceRangeOfIgnoredASTNodes this)
  then setSourceRangeOfIgnoredASTNodes r this
  else setSourceRangeOfIgnoredASTNodes (widen (sourceRangeOfIgnoredASTNodes this) r) this.
End IgnoredNodes.

(** ** The specification's vocabulary

    The definitions below follow the words of the specification; the
    theorems compare them with the code above. *)

Definition minLoc (a b : SourceLoc) : SourceLoc := if Value b <? Value a then b else a.
Definition maxLoc (a b : SourceLoc) : SourceLoc := if Value a <? Value b then b else a.

(** Union of two ranges, where a range that is not valid contributes
    nothing. *)
Definition unionRange (a b : SourceRange) : SourceRange :=
  if isValid b then
    if isValid a then mkRange (minLoc (Start a) (Start b)) (maxLoc (End a) (End b))
    else b
  else a.

(** "Range A contains range B iff A.start <= B.start and B.end <= A.end." *)
Definition contains (A B : SourceRange) : Prop :=
  Value (Start A) <= Value (Start B) /\ Value (End B) <= Value (End A).

(** A location lies within a range when it is one of its ends or strictly
    between them. *)
Definition liesWithin (A : SourceRange) (l : SourceLoc) : Prop :=
  Value l = Value (Start A) \/ Value l = Value (End A)
  \/ (Value (Start A) < Value l /\ Value l < Value (End A)).

(** A range with both ends valid and the end not before the start. *)
Definition validRange (r : SourceRange) : Prop :=
  0 < Value (Start r) /\ 0 < Value (End r) /\ Value (Start r) <= Value (End r).

(** The first candidate that is available, in the order given. *)
Definition firstAvailable (candidates : list (option SourceLoc)) (otherwise : SourceLoc)
  : SourceLoc :=
  default otherwise (head (omap id candidates)).

Definition validOnly (l : SourceLoc) : option SourceLoc :=
  if isValidLoc l then Some l else None.

(** The first parameter of a closure, when it has a parameter list that is
    not empty. *)
Definition firstParameter (c : ClosureExpr) : option ParamDecl :=
  closureParameters c ≫= head.

(** The start a condition element provides for its clause: its own start for
    a boolean or availability condition, the start of the next element for a
    pattern binding; nothing when that location does not exist or is not
    valid. *)
Definition conditionStart (conditionals : list StmtConditionElement) (index : nat)
  : option SourceLoc :=
  cond ← conditionals !! index;
  match condKind cond with
  | CK_PatternBinding => next ← conditionals !! (index + 1)%nat; validOnly (condStartLoc next)
  | _ => validOnly (condStartLoc cond)
  end.

(** The trailing-quote and trailing-angle-bracket locations of the
    interpolated string literals and editor placeholders of a subtree. *)
Fixpoint trailingLocs (e : Expr) : list SourceLoc :=
  match e with
  | mkExpr kind _ _ _ subs =>
    match kind with
    | InterpolatedStringLiteralExpr l | EditorPlaceholderExpr l => [l]
    | OtherExpr => []
    end ++ flat_map trailingLocs subs
  end.

(** The furthest of a list of locations; [noLoc] for none. *)
Definition furthest (ls : list SourceLoc) : SourceLoc := foldr maxLoc noLoc ls.

(** The effective range in the words of the specification, with the
    expression's location as the start. *)
Definition effectiveRange (n : ASTNode) : SourceRange :=
  match n with
  | DeclNode d => declSourceRange d
  | StmtNode s => stmtSourceRange s
  | ExprNode e =>
    let far := furthest (trailingLocs e) in
    mkRange (exprLoc e) (if isValidLoc far then far else exprEndLoc e)
  end.

(** The scopes on the parent chain of a scope, itself included. *)
Inductive onParentChain (T : ScopeTree) : ScopeId -> ScopeId -> Prop :=
| chain_self s : onParentChain T s s
| chain_parent s this p a :
    T !! s = Some this -> parent this = Some p -> onParentChain T p a ->
    onParentChain T s a.

Definition cachedRange (T : ScopeTree) (s : ScopeId) : option SourceRange :=
  T !! s ≫= cachedSourceRange.

(** "The range spanning the first child's range start to the last child's
    range end is contained in the node's own cached range": its two ends lie
    within the cached range, which is containment when the ends of the
    cached range are in order. *)
Definition childrenContained (T : ScopeTree) (self : ScopeId) : Prop :=
  forall this front back,
    T !! self = Some this ->
    head (storedChildren this) = Some front ->
    last (storedChildren this) = Some back ->
    exists r frontRange backRange,
      cachedRange T self = Some r
      /\ cachedRange T front = Some frontRange
      /\ cachedRange T back = Some backRange
      /\ liesWithin r (Start frontRange) /\ liesWithin r (End backRange)
      /\ (Value (Start r) <= Value (End r) ->
          contains r (mkRange (Start frontRange) (End backRange))).

(** [prior] is the child that stands immediately before [self] in the
    children of the parent of [self]. *)
Definition priorSibling (T : ScopeTree) (self prior : ScopeId) : Prop :=
  exists this p parentNode i,
    T !! self = Some this /\ parent this = Some p /\ T !! p = Some parentNode
    /\ storedChildren parentNode !! S i = Some self
    /\ (forall j, (S i < j)%nat -> storedChildren parentNode !! j <> Some self)
    /\ storedChildren parentNode !! i = Some prior.

(** "The node's range starts at or after its immediately preceding
    sibling's range end." *)
Definition comesAfterPriorSibling (T : ScopeTree) (self : ScopeId) : Prop :=
  forall prior,
    priorSibling T self prior ->
    exists r priorRange,
      cachedRange T self = Some r /\ cachedRange T prior = Some priorRange
      /\ Value (End priorRange) <= Value (Start r).

(** Identifiers are handed out in creation order and a scope is created
    after its parent: a parent has a smaller identifier than its children. *)
Definition wellFormedNode (i : ScopeId) (n : ASTScopeImpl) : bool :=
  match parent n with
  | Some p => bool_decide (p < i)%nat
  | None => true
  end
  && forallb (fun c => bool_decide (i < c)%nat) (storedChildren n).

Definition wellFormed (T : ScopeTree) : Prop :=
  map_Forall (fun i n => wellFormedNode i n = true) T.

(** Two trees that differ in cached ranges at most. *)
Definition sameStructure (T T' : ScopeTree) : Prop :=
  forall j, setCachedSourceRange None <$> T' !! j = setCachedSourceRange None <$> T !! j.

(** ** Concrete syntax and trees used as examples *)

Definition L (n : N) : SourceLoc := mkLoc n.
Definition R (s e : N) : SourceRange := mkRange (L s) (L e).

(** A closure [{ x, y in ... }]: parameters at 3 and 6, [in] at 9. *)
Definition closureXY : ClosureExpr :=
  mkClosureExpr (Some [mkParamDecl (L 3); mkParamDecl (L 6)]) (L 9)
                (Some (mkBraceStmt (L 1) (L 40))) (L 1) (L 40).

(** [struct S<T> { ... }] with [T] ending at 10 and [S] ending at 30. *)
Definition structS : GenericHolder := mkGenericHolder None (L 1) (L 30).
Definition paramT : GenericTypeParamDecl := mkGenericTypeParamDecl (L 10).

(** A protocol whose body braces are at 12 and 30. *)
Definition protocolP : GenericHolder := mkGenericHolder (Some (R 12 30)) (L 1) (L 30).

(** A holder starting at 3 whose generic parameter has no end location. *)
Definition holderNoParamEnd : GenericHolder := mkGenericHolder None (L 3) (L 30).
Definition paramNoEnd : GenericTypeParamDecl := mkGenericTypeParamDecl noLoc.

(** [guard c else { ... }]: a boolean condition at 5, the body at 10..20. *)
Definition guardBool : LabeledConditionalStmt :=
  mkLabeledConditionalStmt [mkStmtConditionElement CK_Boolean (L 5)]
                           (mkBraceStmt (L 10) (L 20)).

(** A pattern entry ending at 20 without accessors and at 30 with them. *)
Definition entryWithAccessors : PatternBindingEntry :=
  mkPatternBindingEntry (R 2 30) (R 2 20) (R 8 15).

(** A pattern entry ending at 20 whose initializer ends in an interpolated
    string literal closing at 25. *)
Definition entryInterpolated : PatternBindingEntry :=
  mkPatternBindingEntry (R 2 20) (R 2 20) (R 8 20).

(** A source file 1..100 with two statements 5..10 and 12..20, all cached. *)
Definition fileScope : ASTScopeImpl :=
  mkScope (ASTSourceFileK (mkSourceFile (Some (R 1 100)) [])) None [1; 2]%nat
          (Some (R 1 100)) noRange.
Definition firstStmtScope : ASTScopeImpl :=
  mkScope (AbstractStmtK (R 5 10)) (Some 0%nat) [] (Some (R 5 10)) noRange.
Definition secondStmtScope : ASTScopeImpl :=
  mkScope (AbstractStmtK (R 12 20)) (Some 0%nat) [] (Some (R 12 20)) noRange.

Definition fileTree : ScopeTree :=
  <[0%nat := fileScope]> (<[1%nat := firstStmtScope]> (<[2%nat := secondStmtScope]> ∅)).

(** [a + b] from 10 to 20 with the operator, its location, at 12. *)
Definition binaryExpr : Expr :=
  mkExpr OtherExpr (L 12) (L 10) (L 20)
         [mkExpr OtherExpr (L 10) (L 10) (L 11) []; mkExpr OtherExpr (L 14) (L 14) (L 20) []].

(** An interpolated string literal at 5..20 whose closing quote is at 25,
    with an editor placeholder closing at 18 inside. *)
Definition interpolatedExpr : Expr :=
  mkExpr (InterpolatedStringLiteralExpr (L 25)) (L 5) (L 5) (L 20)
         [mkExpr (EditorPlaceholderExpr (L 18)) (L 9) (L 9) (L 18) []].

(** A declaration without source locations. *)
Definition implicitDecl : Decl := mkDecl noRange.

Definition nothingCreatedDirectly : ASTNode -> bool := fun _ => false.

(** A statement without source locations that has accumulated the ignored
    range 5..9: once with a child cached at 20..30, once without children. *)
Definition implicitStmtWithChild : ScopeTree :=
  <[0%nat := mkScope (AbstractStmtK noRange) None [1%nat] None (R 5 9)]>
    (<[1%nat := mkScope (AbstractStmtK (R 20 30)) (Some 0%nat) [] (Some (R 20 30)) noRange]> ∅).

Definition implicitStmtAlone : ScopeTree :=
  <[0%nat := mkScope (AbstractStmtK noRange) None [] None (R 5 9)]> ∅.

(** A parent cached at 1..10 whose only child is cached at 5..20. *)
Definition shortParent : ASTScopeImpl :=
  mkScope (AbstractStmtK (R 1 10)) None [1%nat] (Some (R 1 10)) noRange.
Definition longChild : ASTScopeImpl :=
  mkScope (AbstractStmtK (R 5 20)) (Some 0%nat) [] (Some (R 5 20)) noRange.

Definition childSticksOut : ScopeTree :=
  <[0%nat := shortParent]> (<[1%nat := longChild]> ∅).

(** Two statements of a file in the wrong order: 12..20 before 5..10. *)
Definition siblingsOutOfOrder : ScopeTree :=
  <[0%nat := fileScope]> (<[1%nat := secondStmtScope]> (<[2%nat := firstStmtScope]> ∅)).

(** A source file 1..100 with three statements 5..10, 12..20 and 22..30. *)
Definition thirdStmtScope : ASTScopeImpl :=
  mkScope (AbstractStmtK (R 22 30)) (Some 0%nat) [] (Some (R 22 30)) noRange.

Definition threeStmtFile : ScopeTree :=
  <[0%nat := mkScope (ASTSourceFileK (mkSourceFile (Some (R 1 100)) [])) None
                     [1; 2; 3]%nat (Some (R 1 100)) noRange]>
    (<[1%nat := firstStmtScope]>
       (<[2%nat := secondStmtScope]> (<[3%nat := thirdStmtScope]> ∅))).

(** The faults of a single computation on a scope: a failed assertion, an
    unreachable case, a bad index or a bad pointer; not an abort of the
    verification and not the bound on the walk up the parent chain. *)
Definition localFault (f : Fault) : Prop :=
  match f with
  | AssertionFailed _ | Unreachable _ | BadIndex | BadPointer => True
  | Aborted _ | OutOfFuel => False
  end.

(** The file tree before the first statement and the file were cached, and
    after their cached ranges were invalidated. *)
Definition fileTreeUncached : ScopeTree :=
  <[0%nat := setCachedSourceRange None fileScope]>
    (<[1%nat := setCachedSourceRange None firstStmtScope]>
       (<[2%nat := secondStmtScope]> ∅)).

Definition fileTreeCleared : ScopeTree :=
  <[0%nat := setCachedSourceRange (Some noRange) fileScope]>
    (<[1%nat := setCachedSourceRange (Some noRange) firstStmtScope]>
       (<[2%nat := secondStmtScope]> ∅)).

(** A capture list [[x] x, y in ...] starting at 1 in front of [closureXY]. *)
Definition captureXY : CaptureListExpr := mkCaptureListExpr (L 1) closureXY.

(** [while let x = f() { ... }]: one pattern binding at 7, the body at
    15..40; and the same conditions for an [if] and a [guard]. *)
Definition whileLet : LabeledConditionalStmt :=
  mkLabeledConditionalStmt [mkStmtConditionElement CK_PatternBinding (L 7)]
                           (mkBraceStmt (L 15) (L 40)).
Definition ifLet : IfStmt :=
  mkIfStmt [mkStmtConditionElement CK_PatternBinding (L 7)] (mkBraceStmt (L 15) (L 40)).

(** [case .a, .b where c: ...]: the second label item has a guard at 9, the
    body is at 12..30. *)
Definition caseWithGuard : CaseStmt :=
  mkCaseStmt [None; Some (L 9)] (mkBraceStmt (L 12) (L 30)).



(** Every parent pointer leads to a scope of the tree. *)
Definition parentPresent (T : ScopeTree) (n : ASTScopeImpl) : bool :=
  match parent n with
  | Some p => bool_decide (is_Some (T !! p))
  | None => true
  end.

Definition parentsPresent (T : ScopeTree) : Prop :=
  map_Forall (fun _ n => parentPresent T n = true) T.

(** A statement 5..10 that is not cached yet, whose first child is cached
    at 12..15 and whose last child is cached at 6..8. *)
Definition invertedChildren : ScopeTree :=
  <[0%nat := mkScope (AbstractStmtK (R 5 10)) None [1; 2]%nat None noRange]>
    (<[1%nat := mkScope (AbstractStmtK (R 12 15)) (Some 0%nat) [] (Some (R 12 15)) noRange]>
       (<[2%nat := mkScope (AbstractStmtK (R 6 8)) (Some 0%nat) [] (Some (R 6 8)) noRange]> ∅)).

(** * Properties *)

(** ** Locations *)

Lemma loc_eq (a b : SourceLoc) : Value a = Value b -> a = b.
Proof. destruct a, b; simpl; congruence. Qed.

Lemma isBeforeInBuffer_lt a b : isBeforeInBuffer a b = true <-> Value a < Value b.
Proof. unfold isBeforeInBuffer. apply N.ltb_lt. Qed.

Lemma isBeforeInBuffer_ge a b : isBeforeInBuffer a b = false <-> Value b <= Value a.
Proof. unfold isBeforeInBuffer. apply N.ltb_ge. Qed.

Lemma isValidLoc_pos l : isValidLoc l = true <-> 0 < Value l.
Proof.
  unfold isValidLoc. rewrite negb_true_iff, N.eqb_neq. lia.
Qed.

Lemma isValidLoc_noLoc l : isValidLoc l = false <-> l = noLoc.
Proof.
  unfold isValidLoc. rewrite negb_false_iff, N.eqb_eq. split.
  - intros H. now apply loc_eq.
  - now intros ->.
Qed.

Lemma rangeContainsTokenLoc_liesWithin range loc :
  rangeContainsTokenLoc range loc = true <-> liesWithin range loc.
Proof.
  unfold rangeContainsTokenLoc, liesWithin.
  rewrite !orb_true_iff, andb_true_iff, !N.eqb_eq, !isBeforeInBuffer_lt. tauto.
Qed.

(** What the check of the program means: both ends of the inner range lie
    within the enclosing range. *)
Lemma rangeContains_liesWithin A B :
  rangeContains A B = true <-> liesWithin A (Start B) /\ liesWithin A (End B).
Proof.
  unfold rangeContains.
  now rewrite andb_true_iff, !rangeContainsTokenLoc_liesWithin.
Qed.

(** For an enclosing range whose ends are in order this gives containment
    in the sense of the specification, and for an inner range whose ends are
    in order containment gives it. *)
Lemma liesWithin_contains A B :
  Value (Start A) <= Value (End A) ->
  liesWithin A (Start B) -> liesWithin A (End B) -> contains A B.
Proof. unfold liesWithin, contains. lia. Qed.

Lemma contains_liesWithin A B :
  Value (Start B) <= Value (End B) ->
  contains A B -> liesWithin A (Start B) /\ liesWithin A (End B).
Proof. unfold liesWithin, contains. lia. Qed.

Lemma widen_min_max r other :
  widen r other = mkRange (minLoc (Start r) (Start other)) (maxLoc (End r) (End other)).
Proof. reflexivity. Qed.

Lemma minLoc_comm a b : minLoc a b = minLoc b a.
Proof.
  unfold minLoc. destruct (N.ltb_spec (Value b) (Value a)), (N.ltb_spec (Value a) (Value b));
    try reflexivity; try lia. apply loc_eq; lia.
Qed.

Lemma maxLoc_comm a b : maxLoc a b = maxLoc b a.
Proof.
  unfold maxLoc. destruct (N.ltb_spec (Value b) (Value a)), (N.ltb_spec (Value a) (Value b));
    try reflexivity; try lia. apply loc_eq; lia.
Qed.

(** ** Closure parameters *)

(** The helper tries the first parameter, the [in] location, the opening
    brace of the body and the start of the closure, in this order. *)
Lemma getStartOfFirstParam_fallback (c : ClosureExpr) :
  getStartOfFirstParam c =
  firstAvailable [paramStartLoc <$> firstParameter c;
                  validOnly (closureInLoc c);
                  LBraceLoc <$> closureBody c]
                 (closureStartLoc c).
Proof.
  unfold getStartOfFirstParam, firstAvailable, firstParameter, validOnly.
  destruct c as [[[|p ps]|] inLoc [body|] s e]; simpl;
    destruct (isValidLoc inLoc); reflexivity.
Qed.

(** C3: the childless range of a closure parameter scope, which exists only
    for a closure whose [in] location is valid, starts at the first
    parameter's start location, or without parameters at the first available
    of the [in] location, the body's opening brace and the closure's start
    (which is the [in] location here), and ends at the [in] location. *)
Theorem ClosureParametersScope_range (c : ClosureExpr) :
  isValidLoc (closureInLoc c) = true ->
  exists r,
    ClosureParametersScope.getChildlessSourceRange c = Ok r
    /\ End r = closureInLoc c
    /\ Start r = firstAvailable [paramStartLoc <$> firstParameter c;
                                 validOnly (closureInLoc c);
                                 LBraceLoc <$> closureBody c]
                                (closureStartLoc c)
    /\ Start r = match firstParameter c with
                 | Some p => paramStartLoc p
                 | None => closureInLoc c
                 end.
Proof.
  intros Hin. unfold ClosureParametersScope.getChildlessSourceRange.
  rewrite Hin. simpl. eexists. split; [reflexivity|]. simpl.
  split; [reflexivity|]. split; [apply getStartOfFirstParam_fallback|].
  unfold getStartOfFirstParam, firstParameter. rewrite Hin.
  destruct (closureParameters c) as [[|p ps]|]; reflexivity.
Qed.

Lemma ClosureParametersScope_range_witness :
  isValidLoc (closureInLoc closureXY) = true
  /\ exists r,
    ClosureParametersScope.getChildlessSourceRange closureXY = Ok r
    /\ End r = closureInLoc closureXY
    /\ Start r = firstAvailable [paramStartLoc <$> firstParameter closureXY;
                                 validOnly (closureInLoc closureXY);
                                 LBraceLoc <$> closureBody closureXY]
                                (closureStartLoc closureXY)
    /\ Start r = match firstParameter closureXY with
                 | Some p => paramStartLoc p
                 | None => closureInLoc closureXY
                 end.
Proof.
  split; [reflexivity | apply (ClosureParametersScope_range closureXY); reflexivity].
Defined.

(** The closure scenario: parameters [(x, y)] and the introducer at 9. *)
Example closureXY_parameters_range :
  ClosureParametersScope.getChildlessSourceRange closureXY = Ok (R 3 9).
Proof. reflexivity. Qed.

(** ** Generic parameters *)

(** A generic parameter without an end location: the range does not start
    at the parameter's end, it starts at the holder's start. *)
Lemma GenericParamScope_start_counterexample :
  protocolBraces holderNoParamEnd = None
  /\ [paramNoEnd] !! 0%nat = Some paramNoEnd
  /\ GenericParamScope.getChildlessSourceRange holderNoParamEnd [paramNoEnd] 0 = Ok (R 3 30)
  /\ GenericParamScope.getChildlessSourceRange holderNoParamEnd [paramNoEnd] 0
     <> Ok (mkRange (genericParamEndLoc paramNoEnd) (holderEndLoc holderNoParamEnd)).
Proof. repeat split; discriminate. Qed.

(** C4, in the form the code satisfies: for a holder that is not a protocol
    the childless range of a generic parameter scope starts at the
    parameter's own end location when that location is valid and at the
    holder's start location otherwise, and ends at the holder's end
    location; for a protocol it starts at the opening brace of the body and
    ends at the protocol's end location. *)
Theorem GenericParamScope_range
    (holder : GenericHolder) (paramList : list GenericTypeParamDecl) (index : nat) :
  (forall braces, protocolBraces holder = Some braces ->
     GenericParamScope.getChildlessSourceRange holder paramList index
     = Ok (mkRange (Start braces) (holderEndLoc holder)))
  /\ (forall param, protocolBraces holder = None -> paramList !! index = Some param ->
        GenericParamScope.getChildlessSourceRange holder paramList index
        = Ok (mkRange (if isValidLoc (genericParamEndLoc param)
                       then genericParamEndLoc param
                       else holderStartLoc holder)
                      (holderEndLoc holder))).
Proof.
  unfold GenericParamScope.getChildlessSourceRange, at_index. split.
  - intros braces ->. reflexivity.
  - intros param -> ->. simpl. unfold isInvalidLoc.
    destruct (isValidLoc (genericParamEndLoc param)); reflexivity.
Qed.

Lemma GenericParamScope_range_witness :
  GenericParamScope.getChildlessSourceRange protocolP [] 0 = Ok (R 12 30)
  /\ GenericParamScope.getChildlessSourceRange structS [paramT] 0 = Ok (R 10 30)
  /\ GenericParamScope.getChildlessSourceRange holderNoParamEnd [paramNoEnd] 0 = Ok (R 3 30).
Proof.
  split; [|split].
  - apply (proj1 (GenericParamScope_range protocolP [] 0) (R 12 30)). reflexivity.
  - apply (proj2 (GenericParamScope_range structS [paramT] 0) paramT); reflexivity.
  - apply (proj2 (GenericParamScope_range holderNoParamEnd [paramNoEnd] 0) paramNoEnd);
      reflexivity.
Defined.

(** ** Conditional clauses *)

Lemma startLocAccordingToCondition_spec conditionals index cond :
  conditionals !! index = Some cond ->
  exists loc,
    ConditionalClauseScope.startLocAccordingToCondition conditionals index = Ok loc
    /\ validOnly loc = conditionStart conditionals index.
Proof.
  intros Hc. unfold ConditionalClauseScope.startLocAccordingToCondition, conditionStart, at_index.
  rewrite Hc. simpl. destruct (condKind cond); simpl; eauto.
  case_bool_decide as Hlt.
  - destruct (lookup_lt_is_Some_2 conditionals (index + 1)%nat Hlt) as [next Hn].
    rewrite Hn. simpl. eauto.
  - rewrite (lookup_ge_None_2 conditionals (index + 1)%nat) by lia.
    simpl. eexists. split; reflexivity.
Qed.

(** The clause of a [guard] does not reach the end of the guarded body:
    with a condition at 5 and the body at 10..20 the range is 5..10. *)
Lemma GuardConditionalClauseScope_end_counterexample :
  GuardConditionalClauseScope.getChildlessSourceRange guardBool 0 = Ok (R 5 10)
  /\ braceEndLoc (stmtBody guardBool) = L 20
  /\ forall r, GuardConditionalClauseScope.getChildlessSourceRange guardBool 0 = Ok r ->
               End r <> braceEndLoc (stmtBody guardBool).
Proof.
  repeat split. intros r [= <-]. discriminate.
Qed.

(** C5, in the form the code satisfies: the childless range of a guard
    clause starts at the location its condition element provides (its own
    start, or for a pattern binding the start of the next element) when
    there is a valid one and at the start of the guarded block otherwise,
    and it ends at the start of the guarded block. *)
Theorem GuardConditionalClauseScope_range
    (stmt : LabeledConditionalStmt) (index : nat) (cond : StmtConditionElement) :
  stmtCond stmt !! index = Some cond ->
  GuardConditionalClauseScope.getChildlessSourceRange stmt index
  = Ok (mkRange (default (braceStartLoc (stmtBody stmt))
                         (conditionStart (stmtCond stmt) index))
                (braceStartLoc (stmtBody stmt))).
Proof.
  intros Hc. unfold GuardConditionalClauseScope.getChildlessSourceRange.
  destruct (startLocAccordingToCondition_spec _ _ _ Hc) as (loc & -> & <-).
  simpl. unfold validOnly, isInvalidLoc. destruct (isValidLoc loc); reflexivity.
Qed.

Lemma GuardConditionalClauseScope_range_witness :
  stmtCond guardBool !! 0%nat = Some (mkStmtConditionElement CK_Boolean (L 5))
  /\ GuardConditionalClauseScope.getChildlessSourceRange guardBool 0
     = Ok (mkRange (default (braceStartLoc (stmtBody guardBool))
                            (conditionStart (stmtCond guardBool) 0))
                   (braceStartLoc (stmtBody guardBool))).
Proof.
  split; [reflexivity|].
  apply (GuardConditionalClauseScope_range guardBool 0 (mkStmtConditionElement CK_Boolean (L 5))).
  reflexivity.
Defined.

(** The [while] clause, by contrast, runs to the end of the body. *)
Lemma WhileConditionalClauseScope_range
    (stmt : LabeledConditionalStmt) (index : nat) (cond : StmtConditionElement) :
  stmtCond stmt !! index = Some cond ->
  WhileConditionalClauseScope.getChildlessSourceRange stmt index
  = Ok (mkRange (default (braceStartLoc (stmtBody stmt))
                         (conditionStart (stmtCond stmt) index))
                (braceEndLoc (stmtBody stmt))).
Proof.
  intros Hc. unfold WhileConditionalClauseScope.getChildlessSourceRange.
  destruct (startLocAccordingToCondition_spec _ _ _ Hc) as (loc & -> & <-).
  simpl. unfold validOnly, isInvalidLoc. destruct (isValidLoc loc); reflexivity.
Qed.

(** ** Pattern entry use scopes *)

(** A recorded initializer end moves the start although it does not lie past
    the end of the pattern (15 against 20 and 30), and when it does lie past
    it (25 against 20) the range no longer ends at the pattern's end. *)
Lemma PatternEntryUseScope_counterexample :
  PatternEntryUseScope.getChildlessSourceRange entryWithAccessors (L 15) = R 15 30
  /\ Start (PatternEntryUseScope.getChildlessSourceRange entryWithAccessors (L 15))
     <> End (entrySourceRangeOmitAccessors entryWithAccessors)
  /\ isBeforeInBuffer (End (entrySourceRange entryWithAccessors)) (L 15) = false
  /\ PatternEntryUseScope.getChildlessSourceRange entryInterpolated (L 25) = R 25 25
  /\ End (PatternEntryUseScope.getChildlessSourceRange entryInterpolated (L 25))
     <> End (entrySourceRange entryInterpolated).
Proof. repeat split; discriminate. Qed.

(** C6, in the form the code satisfies: without a recorded initializer end
    the childless range of a pattern entry use scope runs from the end of
    the pattern entry's range without accessors to the end of its full
    range; with a recorded (valid) initializer end the range starts at that
    location, wherever it lies, and ends at the later of the full range's
    end and that location. *)
Theorem PatternEntryUseScope_range (entry : PatternBindingEntry) (initializerEnd : SourceLoc) :
  (isValidLoc initializerEnd = false ->
     PatternEntryUseScope.getChildlessSourceRange entry initializerEnd
     = mkRange (End (entrySourceRangeOmitAccessors entry)) (End (entrySourceRange entry)))
  /\ (isValidLoc initializerEnd = true ->
        PatternEntryUseScope.getChildlessSourceRange entry initializerEnd
        = mkRange initializerEnd (maxLoc (End (entrySourceRange entry)) initializerEnd)).
Proof.
  unfold PatternEntryUseScope.getChildlessSourceRange.
  split; intros ->; reflexivity.
Qed.

Lemma PatternEntryUseScope_range_witness :
  PatternEntryUseScope.getChildlessSourceRange entryWithAccessors noLoc = R 20 30
  /\ PatternEntryUseScope.getChildlessSourceRange entryInterpolated (L 25) = R 25 25.
Proof.
  split.
  - apply (proj1 (PatternEntryUseScope_range entryWithAccessors noLoc)). reflexivity.
  - apply (proj2 (PatternEntryUseScope_range entryInterpolated (L 25))). reflexivity.
Defined.

(** Whatever was recorded, the range ends no earlier than the pattern. *)
Lemma PatternEntryUseScope_end_covers entry initializerEnd :
  Value (End (entrySourceRange entry))
  <= Value (End (PatternEntryUseScope.getChildlessSourceRange entry initializerEnd)).
Proof.
  unfold PatternEntryUseScope.getChildlessSourceRange.
  destruct (isValidLoc initializerEnd); simpl; [|lia].
  unfold isBeforeInBuffer. destruct (N.ltb_spec (Value (End (entrySourceRange entry)))
                                                (Value initializerEnd)); simpl; lia.
Qed.

(** ** Ordering of scopes *)

Lemma getSourceRange_cached T self this r forDebugging :
  T !! self = Some this -> cachedSourceRange this = Some r ->
  getSourceRange T self forDebugging = Ok r.
Proof.
  intros HT Hc. unfold getSourceRange, deref. rewrite HT. simpl. now rewrite Hc.
Qed.

Lemma hasValidSourceRange_cached T self this r :
  T !! self = Some this -> cachedSourceRange this = Some r ->
  exists b, hasValidSourceRange T self = Ok b /\ (b = true <-> validRange r).
Proof.
  intros HT Hc. unfold hasValidSourceRange.
  rewrite (getSourceRange_cached _ _ _ _ _ HT Hc). simpl. eexists. split; [reflexivity|].
  unfold validRange.
  rewrite !andb_true_iff, negb_true_iff, !isValidLoc_pos, isBeforeInBuffer_ge. tauto.
Qed.

(** C9: for two scopes with cached ranges [precedesInSource] returns, and
    it returns true exactly when both ranges are valid (both ends valid, the
    end not before the start) and the end of the first range is not after
    the start of the second. *)
Theorem precedesInSource_iff (T : ScopeTree) (a b : ScopeId) (na nb : ASTScopeImpl)
    (ra rb : SourceRange) :
  T !! a = Some na -> cachedSourceRange na = Some ra ->
  T !! b = Some nb -> cachedSourceRange nb = Some rb ->
  exists result,
    precedesInSource T a b = Ok result
    /\ (result = true <->
        validRange ra /\ validRange rb /\ Value (End ra) <= Value (Start rb)).
Proof.
  intros Ha Hca Hb Hcb. unfold precedesInSource.
  destruct (hasValidSourceRange_cached _ _ _ _ Ha Hca) as (va & -> & Hva).
  destruct (hasValidSourceRange_cached _ _ _ _ Hb Hcb) as (vb & -> & Hvb).
  simpl. destruct va; simpl.
  - destruct vb; simpl.
    + rewrite (getSourceRange_cached _ _ _ _ _ Hb Hcb),
              (getSourceRange_cached _ _ _ _ _ Ha Hca). simpl.
      eexists. split; [reflexivity|].
      rewrite negb_true_iff, isBeforeInBuffer_ge. tauto.
    + eexists. split; [reflexivity|]. split; [discriminate|].
      intros (_ & Hb' & _). apply Hvb in Hb'. discriminate.
  - eexists. split; [reflexivity|]. split; [discriminate|].
    intros (Ha' & _). apply Hva in Ha'. discriminate.
Qed.

Lemma precedesInSource_iff_witness :
  fileTree !! 1%nat = Some firstStmtScope
  /\ cachedSourceRange firstStmtScope = Some (R 5 10)
  /\ fileTree !! 2%nat = Some secondStmtScope
  /\ cachedSourceRange secondStmtScope = Some (R 12 20)
  /\ exists result,
      precedesInSource fileTree 1%nat 2%nat = Ok result
      /\ (result = true <->
          validRange (R 5 10) /\ validRange (R 12 20)
          /\ Value (End (R 5 10)) <= Value (Start (R 12 20))).
Proof.
  repeat (split; [reflexivity|]).
  apply (precedesInSource_iff fileTree 1%nat 2%nat firstStmtScope secondStmtScope (R 5 10) (R 12 20));
    reflexivity.
Defined.

(** A range that is not valid precedes nothing and nothing precedes it:
    the empty range left by an invalidation, or a range whose end lies
    before its start. *)
Example invalid_ranges_do_not_precede :
  precedesInSource fileTreeCleared 1%nat 2%nat = Ok false
  /\ precedesInSource fileTreeCleared 2%nat 1%nat = Ok false.
Proof. split; reflexivity. Qed.

Example statements_in_order :
  precedesInSource fileTree 1%nat 2%nat = Ok true /\ precedesInSource fileTree 2%nat 1%nat = Ok false.
Proof. split; reflexivity. Qed.

(** ** Ignored nodes *)

Lemma setSourceRangeOfIgnoredASTNodes_same this :
  setSourceRangeOfIgnoredASTNodes (sourceRangeOfIgnoredASTNodes this) this = this.
Proof. destruct this; reflexivity. Qed.

(** C10: when the effective range of the ignored node is invalid the call
    leaves the scope, and with it the accumulated range of ignored nodes,
    exactly as it was; this holds whether or not the node is skipped for
    being created directly. *)
Theorem widenSourceRangeForIgnoredASTNode_invalid
    (isCreatedDirectly : ASTNode -> bool) (n : ASTNode) (this : ASTScopeImpl) :
  isInvalid (getEffectiveSourceRange n) = true ->
  widenSourceRangeForIgnoredASTNode isCreatedDirectly n this = this.
Proof.
  intros Hinv. unfold widenSourceRangeForIgnoredASTNode.
  rewrite Hinv. destruct (isCreatedDirectly n); reflexivity.
Qed.

Lemma widenSourceRangeForIgnoredASTNode_invalid_witness :
  nothingCreatedDirectly (DeclNode implicitDecl) = false
  /\ isInvalid (getEffectiveSourceRange (DeclNode implicitDecl)) = true
  /\ widenSourceRangeForIgnoredASTNode nothingCreatedDirectly (DeclNode implicitDecl)
       firstStmtScope = firstStmtScope.
Proof.
  split; [reflexivity|]. split; [reflexivity|].
  apply (widenSourceRangeForIgnoredASTNode_invalid nothingCreatedDirectly
           (DeclNode implicitDecl) firstStmtScope).
  reflexivity.
Defined.

(** Induction over an expression and the expressions below it. *)
Lemma Expr_subtree_ind (P : Expr -> Prop) :
  (forall kind loc startLoc endLoc subs,
      Forall P subs -> P (mkExpr kind loc startLoc endLoc subs)) ->
  forall e, P e.
Proof.
  intros Hnode. fix IH 1. intros [kind loc startLoc endLoc subs].
  apply Hnode. induction subs as [|sub subs IHsubs]; constructor.
  - apply IH.
  - apply IHsubs.
Qed.

Lemma maxLoc_value a b : Value (maxLoc a b) = N.max (Value a) (Value b).
Proof.
  unfold maxLoc. destruct (N.ltb_spec (Value a) (Value b)); lia.
Qed.

Lemma furthest_app l1 l2 :
  Value (furthest (l1 ++ l2)) = N.max (Value (furthest l1)) (Value (furthest l2)).
Proof.
  unfold furthest. induction l1 as [|x l1 IH]; simpl.
  - lia.
  - rewrite !maxLoc_value, IH. lia.
Qed.

(** What [walkToExprPre] leaves in [end] is the later of the old value and
    the trailing location of the expression, if it has one. *)
Lemma walkToExprPre_value end_ kind loc startLoc endLoc subs :
  Value (EffectiveEndFinder.walkToExprPre end_ (mkExpr kind loc startLoc endLoc subs))
  = N.max (Value end_)
          (Value (furthest match kind with
                           | InterpolatedStringLiteralExpr l | EditorPlaceholderExpr l => [l]
                           | OtherExpr => []
                           end)).
Proof.
  unfold EffectiveEndFinder.walkToExprPre, furthest, isInvalidLoc, isValidLoc, isBeforeInBuffer.
  destruct kind as [q|q|]; simpl; rewrite ?maxLoc_value; simpl; try lia;
    destruct (N.eqb_spec (Value end_) 0), (N.ltb_spec (Value end_) (Value q)); simpl; lia.
Qed.

Lemma walk_value (e : Expr) :
  forall end_,
    Value (EffectiveEndFinder.walk e end_)
    = N.max (Value end_) (Value (furthest (trailingLocs e))).
Proof.
  induction e as [kind loc startLoc endLoc subs IHsubs] using Expr_subtree_ind.
  intros end_. simpl EffectiveEndFinder.walk. simpl trailingLocs.
  rewrite furthest_app, N.max_assoc, <- walkToExprPre_value with (loc := loc)
    (startLoc := startLoc) (endLoc := endLoc) (subs := subs).
  generalize (EffectiveEndFinder.walkToExprPre end_ (mkExpr kind loc startLoc endLoc subs)).
  induction IHsubs as [|sub subs' Hsub _ IH]; intros acc; simpl.
  - unfold furthest. simpl. lia.
  - rewrite IH, Hsub, furthest_app. lia.
Qed.

(** The finder ends with the furthest trailing location of the subtree. *)
Lemma getTrailingQuoteLoc_furthest (e : Expr) :
  EffectiveEndFinder.getTrailingQuoteLoc e = furthest (trailingLocs e).
Proof.
  apply loc_eq. unfold EffectiveEndFinder.getTrailingQuoteLoc.
  rewrite walk_value. simpl. lia.
Qed.

Lemma getEffectiveSourceRange_effectiveRange (n : ASTNode) :
  getEffectiveSourceRange n = effectiveRange n.
Proof.
  destruct n as [d|s|e]; simpl; try reflexivity.
  now rewrite getTrailingQuoteLoc_furthest.
Qed.

(** The effective range of an expression starts at its location, which for
    [a + b] is the operator at 12 and not the start of the expression at
    10; so does the range accumulated from it. *)
Lemma getEffectiveSourceRange_start_counterexample :
  getEffectiveSourceRange (ExprNode binaryExpr) = R 12 20
  /\ exprStartLoc binaryExpr = L 10
  /\ Start (getEffectiveSourceRange (ExprNode binaryExpr)) <> exprStartLoc binaryExpr
  /\ nothingCreatedDirectly (ExprNode binaryExpr) = false
  /\ sourceRangeOfIgnoredASTNodes
       (widenSourceRangeForIgnoredASTNode nothingCreatedDirectly (ExprNode binaryExpr)
                                          firstStmtScope)
     <> unionRange (sourceRangeOfIgnoredASTNodes firstStmtScope)
                   (mkRange (exprStartLoc binaryExpr) (exprEndLoc binaryExpr)).
Proof. repeat split; discriminate. Qed.

(** C7, in the form the code satisfies: a call of the widener with a node
    that is not skipped changes only the accumulated range of ignored nodes,
    which becomes the union of its previous value (nothing when it was
    invalid) with the node's effective range; that range is the source range
    of a declaration or statement, and for an expression it runs from the
    expression's location as given by [getLoc] to the furthest trailing-
    quote or trailing-angle-bracket location of the interpolated string
    literals and editor placeholders of its subtree, or to the expression's
    end location when there is no valid one. *)
Theorem widenSourceRangeForIgnoredASTNode_union
    (isCreatedDirectly : ASTNode -> bool) (n : ASTNode) (this : ASTScopeImpl) :
  isCreatedDirectly n = false ->
  widenSourceRangeForIgnoredASTNode isCreatedDirectly n this
  = setSourceRangeOfIgnoredASTNodes
      (unionRange (sourceRangeOfIgnoredASTNodes this) (effectiveRange n)) this.
Proof.
  intros Hskip. unfold widenSourceRangeForIgnoredASTNode, unionRange.
  rewrite Hskip, getEffectiveSourceRange_effectiveRange. unfold isInvalid.
  destruct (isValid (effectiveRange n)); simpl.
  - destruct (isValid (sourceRangeOfIgnoredASTNodes this)); reflexivity.
  - now rewrite setSourceRangeOfIgnoredASTNodes_same.
Qed.

Lemma widenSourceRangeForIgnoredASTNode_union_witness :
  nothingCreatedDirectly (ExprNode interpolatedExpr) = false
  /\ widenSourceRangeForIgnoredASTNode nothingCreatedDirectly (ExprNode interpolatedExpr)
       firstStmtScope
     = setSourceRangeOfIgnoredASTNodes
         (unionRange (sourceRangeOfIgnoredASTNodes firstStmtScope)
                     (effectiveRange (ExprNode interpolatedExpr)))
         firstStmtScope.
Proof.
  split; [reflexivity|].
  apply (widenSourceRangeForIgnoredASTNode_union nothingCreatedDirectly
           (ExprNode interpolatedExpr) firstStmtScope).
  reflexivity.
Defined.

(** The ignored-node scenario: the literal spans 5..20, its closing quote
    is at 25, and 25 is the end of what the scope accumulates. *)
Example interpolated_effective_end :
  getEffectiveSourceRange (ExprNode interpolatedExpr) = R 5 25
  /\ sourceRangeOfIgnoredASTNodes
       (widenSourceRangeForIgnoredASTNode nothingCreatedDirectly (ExprNode interpolatedExpr)
          (widenSourceRangeForIgnoredASTNode nothingCreatedDirectly (ExprNode binaryExpr)
             firstStmtScope))
     = R 5 25.
Proof. split; reflexivity. Qed.

(** ** Recomputing the range of a scope *)

Lemma widen_if_valid_union cl ignored :
  isValid cl = true \/ isValid ignored = false ->
  (if isValid ignored then widen cl ignored else cl) = unionRange cl ignored.
Proof.
  unfold unionRange. intros [Hcl | Hign].
  - rewrite Hcl. reflexivity.
  - rewrite Hign. reflexivity.
Qed.

Lemma widen_children_union u childRange :
  isValid childRange = true ->
  (if isInvalidLoc (Start u) then childRange else widen childRange u)
  = unionRange u childRange.
Proof.
  intros Hcr. unfold unionRange, isInvalidLoc. rewrite Hcr.
  fold (isValid u). destruct (isValid u); simpl; [|reflexivity].
  rewrite widen_min_max. f_equal; [apply minLoc_comm | apply maxLoc_comm].
Qed.

(** C1: the recomputed range is not the union when the childless range is
    invalid and the range of ignored nodes is valid.  A statement scope
    without source locations that has ignored nodes at 5..9 and a child
    cached at 20..30 gets 20..30, where the union is 5..30; the same scope
    without children stops at the assertion although one of the two ranges
    is valid. *)
Theorem getUncachedSourceRange_drops_ignored_range :
  getUncachedSourceRange implicitStmtWithChild 0%nat false = Ok (R 20 30)
  /\ unionRange (unionRange noRange (R 5 9)) (R 20 30) = R 5 30
  /\ getUncachedSourceRange implicitStmtAlone 0%nat false
     = Fatal (AssertionFailed "childlessRange.Start.isValid()")
  /\ isValid (R 5 9) = true.
Proof. repeat split. Qed.

(** Where the recomputed range is the union: for a scope whose childless
    range is valid or whose range of ignored nodes is invalid, it is the
    union of the childless range, the range of ignored nodes when it is
    valid, and, when the scope has children whose first range starts at a
    valid location, the range from the start of the first child's range to
    the end of the last child's range; without children it is the union of
    the first two, provided the childless range is valid. *)
Lemma getUncachedSourceRange_union
    (T : ScopeTree) (self : ScopeId) (this : ASTScopeImpl) (cl : SourceRange)
    (forDebugging : bool) :
  T !! self = Some this ->
  getChildlessSourceRange (scopeKind this) = Ok cl ->
  isValid cl = true \/ isValid (sourceRangeOfIgnoredASTNodes this) = false ->
  (storedChildren this = [] -> isValid cl = true ->
     getUncachedSourceRange T self forDebugging
     = Ok (unionRange cl (sourceRangeOfIgnoredASTNodes this)))
  /\ (forall front back frontRange backRange,
        head (storedChildren this) = Some front ->
        last (storedChildren this) = Some back ->
        getSourceRange T front forDebugging = Ok frontRange ->
        getSourceRange T back forDebugging = Ok backRange ->
        isValidLoc (Start frontRange) = true ->
        getUncachedSourceRange T self forDebugging
        = Ok (unionRange (unionRange cl (sourceRangeOfIgnoredASTNodes this))
                         (mkRange (Start frontRange) (End backRange)))).
Proof.
  intros HT Hcl Hor. unfold getUncachedSourceRange, deref. rewrite HT. simpl.
  rewrite Hcl. simpl. rewrite (widen_if_valid_union _ _ Hor). split.
  - intros -> Hvalid. simpl.
    assert (Hu : isValidLoc (Start (unionRange cl (sourceRangeOfIgnoredASTNodes this))) = true).
    { unfold unionRange. fold (isValid cl). rewrite Hvalid.
      destruct (isValid (sourceRangeOfIgnoredASTNodes this)) eqn:Hign; [|exact Hvalid].
      simpl. unfold minLoc, isValid in *.
      destruct (_ <? _); assumption. }
    rewrite Hu. reflexivity.
  - intros front back frontRange backRange -> -> -> -> Hstart. simpl.
    rewrite Hstart, orb_true_r. simpl.
    rewrite <- (widen_children_union _ (mkRange (Start frontRange) (End backRange)) Hstart).
    now destruct (isInvalidLoc _).
Qed.

Lemma getUncachedSourceRange_union_witness :
  (getUncachedSourceRange fileTree 1%nat false = Ok (unionRange (R 5 10) noRange))
  /\ (getUncachedSourceRange fileTree 0%nat false
      = Ok (unionRange (unionRange (R 1 100) noRange) (mkRange (L 5) (L 20)))).
Proof.
  split.
  - apply (proj1 (getUncachedSourceRange_union fileTree 1%nat firstStmtScope (R 5 10) false
                    eq_refl eq_refl (or_introl eq_refl))); reflexivity.
  - apply (proj2 (getUncachedSourceRange_union fileTree 0%nat fileScope (R 1 100) false
                    eq_refl eq_refl (or_introl eq_refl)) 1%nat 2%nat (R 5 10) (R 12 20));
      reflexivity.
Defined.

(** Without children and without a valid childless range the assertion
    fails, whatever the ignored nodes have accumulated. *)
Lemma getUncachedSourceRange_childless_invalid T self this cl forDebugging :
  T !! self = Some this ->
  getChildlessSourceRange (scopeKind this) = Ok cl ->
  storedChildren this = [] ->
  isValid cl = false ->
  getUncachedSourceRange T self forDebugging
  = Fatal (AssertionFailed "childlessRange.Start.isValid()").
Proof.
  intros HT Hcl Hnil Hinv. unfold getUncachedSourceRange, deref.
  rewrite HT. simpl. rewrite Hcl, Hnil. simpl.
  assert (Hstart : isValidLoc
            (Start (if isValid (sourceRangeOfIgnoredASTNodes this)
                    then widen cl (sourceRangeOfIgnoredASTNodes this) else cl)) = false).
  { destruct (isValid (sourceRangeOfIgnoredASTNodes this)); [|exact Hinv].
    unfold isValid in Hinv. apply isValidLoc_noLoc in Hinv.
    simpl. rewrite Hinv. unfold isBeforeInBuffer. simpl.
    destruct (Value _ <? 0) eqn:Hlt; [apply N.ltb_lt in Hlt; lia | reflexivity]. }
  rewrite Hstart. reflexivity.
Qed.

(** ** The cache and its invalidation *)

(** A range that was never cached: the plain query fails its assertion, the
    query for debugging returns the empty range. *)
Lemma getSourceRange_not_cached T self this :
  T !! self = Some this -> cachedSourceRange this = None ->
  getSourceRange T self false
  = Fatal (AssertionFailed "should have been cached after last expandMe")
  /\ getSourceRange T self true = Ok noRange.
Proof.
  intros HT Hc. unfold getSourceRange, deref. rewrite HT. simpl. rewrite Hc. now split.
Qed.

Lemma clearSourceRangeCache_spec T self this :
  T !! self = Some this ->
  clearSourceRangeCache T self = Ok (<[self := setCachedSourceRange (Some noRange) this]> T).
Proof.
  intros HT. unfold clearSourceRangeCache, deref. rewrite HT. reflexivity.
Qed.

(** After [clearSourceRangeCache] the optional holds the empty range, and
    the plain query returns it without failing the assertion. *)
Lemma getSourceRange_after_clear T self this :
  T !! self = Some this ->
  exists T', clearSourceRangeCache T self = Ok T'
             /\ getSourceRange T' self false = Ok noRange.
Proof.
  intros HT. rewrite (clearSourceRangeCache_spec _ _ _ HT). eexists. split; [reflexivity|].
  unfold getSourceRange, deref. rewrite lookup_insert_eq. reflexivity.
Qed.

(** The invalidation along the parent chain touches nothing but cached
    ranges, and every range it touches becomes the empty range. *)
Lemma clearCachedSourceRangesOfAncestors_only_cache fuel :
  forall T self T',
    clearCachedSourceRangesOfAncestors fuel T self = Ok T' ->
    forall j, T' !! j = T !! j
              \/ exists n, T !! j = Some n
                           /\ T' !! j = Some (setCachedSourceRange (Some noRange) n).
Proof.
  induction fuel as [|fuel IH]; intros T self T' Hrun j; [discriminate|].
  simpl in Hrun. unfold clearSourceRangeCache, deref in Hrun.
  destruct (T !! self) as [this|] eqn:HT; [|discriminate]. simpl in Hrun.
  rewrite lookup_insert_eq in Hrun. simpl in Hrun.
  set (T1 := <[self := setCachedSourceRange (Some (rangeOfLoc noLoc)) this]> T) in *.
  assert (Hstep : T1 !! j = T !! j
                  \/ exists n, T !! j = Some n
                               /\ T1 !! j = Some (setCachedSourceRange (Some noRange) n)).
  { unfold T1. destruct (decide (self = j)) as [<-|Hne].
    - right. exists this. rewrite lookup_insert_eq. now split.
    - left. now rewrite lookup_insert_ne. }
  destruct (parent this) as [p|].
  - destruct (IH _ _ _ Hrun j) as [Heq | (n & Hn & Hn')].
    + rewrite Heq. exact Hstep.
    + destruct Hstep as [Heq | (m & Hm & Hm')].
      * right. exists n. rewrite <- Heq. now split.
      * right. exists m. split; [exact Hm|]. rewrite Hn'. rewrite Hm' in Hn.
        injection Hn as <-. reflexivity.
  - injection Hrun as <-. exact Hstep.
Qed.

(** C8: a query after an invalidation does not fail.  Scope 1 of the file
    tree has the cached range 5..10; after the invalidation of its parent
    chain the plain query of scope 1 and of its parent returns the empty
    range, as for a scope whose cached range is legitimately invalid; a
    scope that was never cached fails the assertion. *)
Theorem query_after_invalidation :
  getSourceRange fileTree 1%nat false = Ok (R 5 10)
  /\ (exists T',
        clearCachedSourceRangesOfAncestors 2 fileTree 1%nat = Ok T'
        /\ getSourceRange T' 1%nat false = Ok noRange
        /\ getSourceRange T' 0%nat false = Ok noRange
        /\ getSourceRange T' 2%nat false = Ok (R 12 20))
  /\ getSourceRange implicitStmtAlone 0%nat false
     = Fatal (AssertionFailed "should have been cached after last expandMe").
Proof.
  split; [reflexivity|]. split; [|reflexivity].
  eexists. split; [reflexivity|]. repeat split.
Qed.

(** ** The structural validator *)

Lemma cachedRange_getSourceRange T s r forDebugging :
  cachedRange T s = Some r -> getSourceRange T s forDebugging = Ok r.
Proof.
  unfold cachedRange. destruct (T !! s) as [n|] eqn:HT; [|discriminate].
  simpl. intros Hc. exact (getSourceRange_cached _ _ _ _ _ HT Hc).
Qed.

Lemma getSourceRange_cachedRange T s r :
  getSourceRange T s false = Ok r -> cachedRange T s = Some r.
Proof.
  unfold getSourceRange, cachedRange, deref.
  destruct (T !! s) as [n|]; [|discriminate]. simpl.
  destruct (cachedSourceRange n); [|discriminate]. congruence.
Qed.

Lemma verifyThatChildrenAreContained_true T self b :
  verifyThatChildrenAreContained T self = Ok b ->
  b = true /\ childrenContained T self.
Proof.
  unfold verifyThatChildrenAreContained, deref, childrenContained.
  destruct (T !! self) as [this|] eqn:HT; [|discriminate]. simpl.
  destruct (head (storedChildren this)) as [front|] eqn:Hfront.
  - destruct (last (storedChildren this)) as [back|] eqn:Hback.
    + destruct (getSourceRange T front false) as [fr|] eqn:Hfr; [|discriminate]. simpl.
      destruct (getSourceRange T back false) as [br|] eqn:Hbr; [|discriminate]. simpl.
      destruct (getSourceRange T self false) as [r|] eqn:Hr; [|discriminate]. simpl.
      destruct (rangeContains r _) eqn:Hc; [|discriminate].
      intros [= <-]. split; [reflexivity|].
      intros this' front' back' [= <-]. rewrite Hfront, Hback. intros [= <-] [= <-].
      exists r, fr, br.
      split; [now apply getSourceRange_cachedRange|].
      split; [now apply getSourceRange_cachedRange|].
      split; [now apply getSourceRange_cachedRange|].
      apply rangeContains_liesWithin in Hc as [Hs He].
      split; [exact Hs|]. split; [exact He|].
      intros Horder. now apply liesWithin_contains.
    + intros [= <-]. split; [reflexivity|].
      intros this' front' back' [= <-]. rewrite Hback. discriminate.
  - intros [= <-]. split; [reflexivity|].
    intros this' front' back' [= <-]. rewrite Hfront. discriminate.
Qed.

Lemma findMyIndex_Some self l n k :
  findMyIndex self l n = Some k ->
  l !! k = Some self /\ (k < n)%nat
  /\ forall j, (k < j < n)%nat -> l !! j <> Some self.
Proof.
  induction n as [|n IH]; simpl; [discriminate|].
  case_bool_decide as Hn.
  - intros [= <-]. repeat split; [assumption | lia | intros j Hj; lia].
  - intros Hk. destruct (IH Hk) as (Hl & Hlt & Hlater).
    repeat split; [assumption | lia |].
    intros j Hj. destruct (decide (j = n)) as [->|]; [assumption | apply Hlater; lia].
Qed.

Lemma findMyIndex_last self l k n :
  l !! k = Some self -> (k < n)%nat ->
  (forall j, (k < j)%nat -> l !! j <> Some self) ->
  findMyIndex self l n = Some k.
Proof.
  intros Hk Hlt Hlater. induction n as [|n IH]; [lia|]. simpl.
  case_bool_decide as Hn.
  - f_equal. destruct (decide (n = k)) as [|Hne]; [assumption|].
    exfalso. apply (Hlater n); [lia | assumption].
  - apply IH. destruct (decide (k = n)) as [->|]; [congruence | lia].
Qed.

Lemma getPriorSibling_priorSibling T self prior :
  priorSibling T self prior -> getPriorSibling T self = Ok (Some prior).
Proof.
  intros (this & p & parentNode & i & HT & Hp & HTp & Hme & Hlast & Hprior).
  unfold getPriorSibling, deref. rewrite HT. simpl. rewrite Hp, HTp. simpl.
  rewrite (findMyIndex_last self _ (S i)); try assumption.
  - unfold at_index. rewrite Hprior. reflexivity.
  - now apply lookup_lt_Some in Hme.
Qed.

Lemma precedesInSource_true T a b :
  precedesInSource T a b = Ok true ->
  exists ra rb, cachedRange T a = Some ra /\ cachedRange T b = Some rb
                /\ Value (End ra) <= Value (Start rb).
Proof.
  unfold precedesInSource, hasValidSourceRange.
  destruct (getSourceRange T a false) as [ra|] eqn:Ha; [|discriminate]. simpl.
  destruct (_ && _ && negb (isBeforeInBuffer (End ra) _)); [|discriminate]. simpl.
  destruct (getSourceRange T b false) as [rb|] eqn:Hb; [|discriminate]. simpl.
  destruct (_ && _ && negb (isBeforeInBuffer (End rb) _)); [|discriminate]. simpl.
  intros [= Hord]. apply negb_true_iff, isBeforeInBuffer_ge in Hord.
  exists ra, rb. repeat split; try (now apply getSourceRange_cachedRange); assumption.
Qed.

Lemma verifyThatThisNodeComeAfterItsPriorSibling_true T self b :
  verifyThatThisNodeComeAfterItsPriorSibling T self = Ok b ->
  b = true /\ comesAfterPriorSibling T self.
Proof.
  unfold verifyThatThisNodeComeAfterItsPriorSibling, comesAfterPriorSibling.
  destruct (getPriorSibling T self) as [[prior|]|] eqn:Hprior; [| |discriminate]; simpl.
  - destruct (precedesInSource T prior self) as [[|]|] eqn:Hprec; simpl.
    + intros [= <-]. split; [reflexivity|]. intros prior' Hp'.
      rewrite (getPriorSibling_priorSibling _ _ _ Hp') in Hprior.
      injection Hprior as ->.
      destruct (precedesInSource_true _ _ _ Hprec) as (rp & r & Hrp & Hr & Hle).
      exists r, rp. now repeat split.
    + unfold deref. destruct (T !! self) as [this|]; [|discriminate]. simpl.
      destruct (parent this); discriminate.
    + discriminate.
  - intros [= <-]. split; [reflexivity|]. intros prior' Hp'.
    rewrite (getPriorSibling_priorSibling _ _ _ Hp') in Hprior. discriminate.
Qed.

(** A verification that comes back has found both properties to hold; it
    never comes back with [false]. *)
Lemma verifySourceRange_true T self b :
  verifySourceRange T self = Ok b ->
  b = true /\ childrenContained T self /\ comesAfterPriorSibling T self.
Proof.
  unfold verifySourceRange.
  destruct (verifyThatChildrenAreContained T self) as [c|] eqn:Hc; [|discriminate].
  destruct (verifyThatChildrenAreContained_true _ _ _ Hc) as [-> Hcontained]. simpl.
  intros Hord. destruct (verifyThatThisNodeComeAfterItsPriorSibling_true _ _ _ Hord)
    as [-> Hafter].
  now repeat split.
Qed.

(** *** Trees that differ in cached ranges only *)

Lemma sameStructure_refl T : sameStructure T T.
Proof. intros j. reflexivity. Qed.

Lemma sameStructure_trans T1 T2 T3 :
  sameStructure T1 T2 -> sameStructure T2 T3 -> sameStructure T1 T3.
Proof. intros H12 H23 j. now rewrite H23, H12. Qed.

Lemma sameStructure_sym T1 T2 : sameStructure T1 T2 -> sameStructure T2 T1.
Proof. intros H j. now rewrite H. Qed.

Lemma sameStructure_insert T q n c :
  T !! q = Some n -> sameStructure T (<[q := setCachedSourceRange c n]> T).
Proof.
  intros Hq j. destruct (decide (q = j)) as [<-|Hne].
  - rewrite lookup_insert_eq, Hq. reflexivity.
  - now rewrite lookup_insert_ne.
Qed.

Lemma sameStructure_lookup T T' j n :
  sameStructure T T' -> T !! j = Some n ->
  exists n', T' !! j = Some n' /\ parent n' = parent n
             /\ storedChildren n' = storedChildren n.
Proof.
  intros Hs Hj. specialize (Hs j). rewrite Hj in Hs.
  destruct (T' !! j) as [n'|]; [|discriminate]. simpl in Hs.
  exists n'. split; [reflexivity|]. destruct n, n'. simpl in *.
  injection Hs as -> -> -> ->. now split.
Qed.

Lemma wellFormed_sameStructure T T' :
  sameStructure T T' -> wellFormed T -> wellFormed T'.
Proof.
  intros Hs Hwf j n' Hj.
  destruct (sameStructure_lookup _ _ _ _ (sameStructure_sym _ _ Hs) Hj)
    as (n & Hn & Hp & Hc).
  specialize (Hwf j n Hn). unfold wellFormedNode in *. simpl in *.
  now rewrite <- Hp, <- Hc.
Qed.

Lemma onParentChain_sameStructure T T' s a :
  sameStructure T T' -> onParentChain T s a -> onParentChain T' s a.
Proof.
  intros Hs Hchain. induction Hchain as [s | s this p a HT Hp _ IH].
  - constructor.
  - destruct (sameStructure_lookup _ _ _ _ Hs HT) as (n' & Hn' & Hp' & _).
    apply (chain_parent _ _ n' p); [assumption | congruence | assumption].
Qed.

Lemma priorSibling_sameStructure T T' self prior :
  sameStructure T T' -> priorSibling T self prior -> priorSibling T' self prior.
Proof.
  intros Hs (this & p & parentNode & i & HT & Hp & HTp & Hme & Hlast & Hprior).
  destruct (sameStructure_lookup _ _ _ _ Hs HT) as (this' & HT' & Hp' & _).
  destruct (sameStructure_lookup _ _ _ _ Hs HTp) as (parentNode' & HTp' & _ & Hc').
  exists this', p, parentNode', i. rewrite Hc'.
  repeat split; try assumption. congruence.
Qed.

Lemma wellFormed_parent T s n p :
  wellFormed T -> T !! s = Some n -> parent n = Some p -> (p < s)%nat.
Proof.
  intros Hwf Hs Hp. specialize (Hwf s n Hs). unfold wellFormedNode in Hwf.
  rewrite Hp in Hwf. apply andb_true_iff in Hwf as [Hlt _].
  now apply bool_decide_eq_true in Hlt.
Qed.

Lemma wellFormed_child T s n c :
  wellFormed T -> T !! s = Some n -> c ∈ storedChildren n -> (s < c)%nat.
Proof.
  intros Hwf Hs Hc. specialize (Hwf s n Hs). unfold wellFormedNode in Hwf.
  apply andb_true_iff in Hwf as [_ Hall].
  rewrite forallb_forall in Hall. apply list_elem_of_In in Hc.
  specialize (Hall c Hc). now apply bool_decide_eq_true in Hall.
Qed.

Lemma onParentChain_le T s a :
  wellFormed T -> onParentChain T s a -> (a <= s)%nat.
Proof.
  intros Hwf Hchain. induction Hchain as [s | s this p a HT Hp _ IH]; [lia|].
  pose proof (wellFormed_parent _ _ _ _ Hwf HT Hp). lia.
Qed.

(** *** What a later update of other caches leaves in place *)

Lemma cachedRange_agree T T' s : T' !! s = T !! s -> cachedRange T' s = cachedRange T s.
Proof. unfold cachedRange. now intros ->. Qed.



(** *** The caching pass *)

Lemma cacheSourceRange_inv T self T' :
  cacheSourceRange T self = Ok T' ->
  exists this r,
    T !! self = Some this
    /\ getUncachedSourceRange T self false = Ok r
    /\ T' = <[self := setCachedSourceRange (Some r) this]> T
    /\ childrenContained T' self /\ comesAfterPriorSibling T' self.
Proof.
  unfold cacheSourceRange.
  destruct (getUncachedSourceRange T self false) as [r|] eqn:Hr; [|discriminate]. simpl.
  unfold deref. destruct (T !! self) as [this|] eqn:HT; [|discriminate]. simpl.
  destruct (verifySourceRange _ self) as [b|] eqn:Hv; [|discriminate]. simpl.
  intros [= <-]. destruct (verifySourceRange_true _ _ _ Hv) as (_ & Hcc & Hafter).
  exists this, r. now repeat split.
Qed.

(** The pass keeps the structure of the tree and leaves every scope with a
    larger identifier than its starting point as it was. *)
Lemma cacheSourceRangesOfAncestors_frame fuel :
  forall T p T',
    wellFormed T ->
    cacheSourceRangesOfAncestors fuel T p = Ok T' ->
    sameStructure T T' /\ forall j, (p < j)%nat -> T' !! j = T !! j.
Proof.
  induction fuel as [|fuel IH]; intros T p T' Hwf Hrun; [discriminate|].
  simpl in Hrun.
  destruct (cacheSourceRange T p) as [T1|] eqn:H1; [|discriminate]. simpl in Hrun.
  destruct (cacheSourceRange_inv _ _ _ H1) as (this & r & HT & _ & -> & _).
  pose proof (sameStructure_insert T p this (Some r) HT) as Hs1.
  unfold deref in Hrun. rewrite lookup_insert_eq in Hrun. simpl in Hrun.
  destruct (parent this) as [q|] eqn:Hq.
  - destruct (IH _ _ _ (wellFormed_sameStructure _ _ Hs1 Hwf) Hrun) as [Hs2 Hfar].
    pose proof (wellFormed_parent _ _ _ _ Hwf HT Hq).
    split; [exact (sameStructure_trans _ _ _ Hs1 Hs2)|].
    intros j Hj. rewrite Hfar by lia. apply lookup_insert_ne. lia.
  - injection Hrun as <-. split; [assumption|].
    intros j Hj. apply lookup_insert_ne. lia.
Qed.

(** *** Enough steps

    [OutOfFuel] belongs to the bound on the walk up the parent chain; no
    other operation produces it. *)

Ltac outcome_cases :=
  unfold mbind, Outcome_bind, assertion, at_index, deref;
  repeat (match goal with
          | |- context [match ?x with _ => _ end] =>
            lazymatch x with
            | context [match _ with _ => _ end] => fail
            | _ => destruct x eqn:?
            end
          end; cbv beta iota; try discriminate).






(** *** The properties after a pass *)


(** A pass changes nothing off the parent chain. *)
Lemma cacheSourceRangesOfAncestors_off_chain fuel :
  forall (T : ScopeTree) (self : ScopeId) T',
    cacheSourceRangesOfAncestors fuel T self = Ok T' ->
    sameStructure T T' /\ forall j, ~ onParentChain T self j -> T' !! j = T !! j.
Proof.
  induction fuel as [|fuel IH]; intros T self T' Hrun; [discriminate|].
  simpl in Hrun.
  destruct (cacheSourceRange T self) as [T1|] eqn:H1; [|discriminate]. simpl in Hrun.
  destruct (cacheSourceRange_inv _ _ _ H1) as (this & r & HT & _ & HT1 & _).
  assert (Hs1 : sameStructure T T1) by (rewrite HT1; now apply sameStructure_insert).
  assert (Hne1 : forall j, j <> self -> T1 !! j = T !! j)
    by (intros j Hj; rewrite HT1; apply lookup_insert_ne; congruence).
  unfold deref in Hrun.
  assert (Hself : T1 !! self = Some (setCachedSourceRange (Some r) this))
    by (rewrite HT1; apply lookup_insert_eq).
  rewrite Hself in Hrun. simpl in Hrun. clear HT1 H1.
  destruct (parent this) as [p|] eqn:Hp.
  - destruct (IH _ _ _ Hrun) as [Hs2 Hoff]. split; [now apply (sameStructure_trans _ T1)|].
    intros j Hj. assert (j <> self) by (intros ->; apply Hj; constructor).
    rewrite Hoff; [now apply Hne1|].
    intros Hc. apply Hj. apply (chain_parent _ _ this p); try assumption.
    apply (onParentChain_sameStructure T1 T); [now apply sameStructure_sym | assumption].
  - injection Hrun as <-. split; [assumption|].
    intros j Hj. apply Hne1. intros ->. apply Hj. constructor.
Qed.

(** *** Violations *)








(** A pass on the file tree from its first statement leaves the tree as it
    is, the cached ranges being the recomputed ones already. *)
Example fileTree_pass : cacheSourceRangesOfAncestors 2 fileTree 1%nat = Ok fileTree.
Proof. vm_compute. reflexivity. Qed.

Example siblingsOutOfOrder_aborts :
  cacheSourceRangesOfAncestors 3 siblingsOutOfOrder 2%nat
  = Fatal (Aborted (OutOfOrderNodes 1%nat 2%nat 0%nat)).
Proof. reflexivity. Qed.

(** * Further properties of the code *)

(** ** The prior sibling *)

(** What a scope returned by [getPriorSibling] is. *)
Lemma getPriorSibling_Some (T : ScopeTree) (self prior : ScopeId) :
  getPriorSibling T self = Ok (Some prior) -> priorSibling T self prior.
Proof.
  unfold getPriorSibling, deref, priorSibling.
  destruct (T !! self) as [this|] eqn:HT; [|discriminate]. simpl.
  destruct (parent this) as [p|] eqn:Hp; [|discriminate].
  destruct (T !! p) as [parentNode|] eqn:HTp; [|discriminate]. simpl.
  destruct (findMyIndex self _ _) as [[|i]|] eqn:Hfind; try discriminate.
  unfold at_index. destruct (storedChildren parentNode !! i) as [s|] eqn:Hs; [|discriminate].
  simpl. intros [= <-].
  destruct (findMyIndex_Some _ _ _ _ Hfind) as (Hme & _ & Hlater).
  exists this, p, parentNode, i. repeat split; try assumption.
  intros j Hj. destruct (decide (j < length (storedChildren parentNode))%nat) as [Hlt|Hge].
  - apply Hlater. lia.
  - rewrite lookup_ge_None_2 by lia. discriminate.
Qed.

(** [getPriorSibling] returns a scope exactly when that scope stands
    immediately before the last occurrence of the scope among the children
    of its parent. *)
Theorem getPriorSibling_iff (T : ScopeTree) (self prior : ScopeId) :
  getPriorSibling T self = Ok (Some prior) <-> priorSibling T self prior.
Proof.
  split.
  - apply getPriorSibling_Some.
  - apply getPriorSibling_priorSibling.
Qed.

(** The root has no prior sibling, and neither has a scope whose last
    occurrence among its parent's children is the first child; a scope that
    its parent does not list fails the assertion. *)
Theorem getPriorSibling_edges (T : ScopeTree) (self : ScopeId) (this : ASTScopeImpl) :
  T !! self = Some this ->
  (parent this = None -> getPriorSibling T self = Ok None)
  /\ (forall p parentNode,
        parent this = Some p -> T !! p = Some parentNode ->
        self ∉ storedChildren parentNode ->
        getPriorSibling T self = Fatal (AssertionFailed "I have been disowned!"))
  /\ (forall p parentNode rest,
        parent this = Some p -> T !! p = Some parentNode ->
        storedChildren parentNode = self :: rest -> self ∉ rest ->
        getPriorSibling T self = Ok None).
Proof.
  intros HT. unfold getPriorSibling, deref. rewrite HT. simpl.
  split; [intros ->; reflexivity|]. split.
  - intros p parentNode -> ->. simpl. intros Hnot.
    destruct (findMyIndex self _ _) as [k|] eqn:Hfind; [|reflexivity].
    destruct (findMyIndex_Some _ _ _ _ Hfind) as (Hme & _ & _).
    exfalso. apply Hnot. apply list_elem_of_lookup. now exists k.
  - intros p parentNode rest -> -> Hkids Hnot. simpl. rewrite Hkids.
    rewrite (findMyIndex_last self (self :: rest) 0); [reflexivity | reflexivity | simpl; lia |].
    intros [|j] Hj; [lia|]. simpl. intros Hin.
    apply Hnot. apply list_elem_of_lookup. now exists j.
Qed.

Lemma getPriorSibling_edges_witness :
  getPriorSibling fileTree 0%nat = Ok None
  /\ getPriorSibling fileTree 1%nat = Ok None
  /\ getPriorSibling childSticksOut 1%nat = Ok None.
Proof.
  split; [|split].
  - apply (proj1 (getPriorSibling_edges fileTree 0%nat fileScope eq_refl)). reflexivity.
  - apply (proj2 (proj2 (getPriorSibling_edges fileTree 1%nat firstStmtScope eq_refl))
             0%nat fileScope [2%nat]); try reflexivity.
    intros Hin. apply list_elem_of_singleton in Hin. discriminate.
  - apply (proj2 (proj2 (getPriorSibling_edges childSticksOut 1%nat longChild eq_refl))
             0%nat shortParent []); try reflexivity.
    apply not_elem_of_nil.
Defined.

(** ** The order of scopes *)

(** [precedesInSource] is transitive: a scope that precedes a second one,
    which precedes a third, precedes the third. *)
Theorem precedesInSource_trans (T : ScopeTree) (a b c : ScopeId) :
  precedesInSource T a b = Ok true ->
  precedesInSource T b c = Ok true ->
  precedesInSource T a c = Ok true.
Proof.
  unfold precedesInSource, hasValidSourceRange.
  destruct (getSourceRange T a false) as [ra|]; [|discriminate]. simpl.
  destruct (isValidLoc (Start ra) && isValidLoc (End ra)
            && negb (isBeforeInBuffer (End ra) (Start ra))) eqn:Hva; [|discriminate]. simpl.
  destruct (getSourceRange T b false) as [rb|]; [|discriminate]. simpl.
  destruct (isValidLoc (Start rb) && isValidLoc (End rb)
            && negb (isBeforeInBuffer (End rb) (Start rb))) eqn:Hvb; [|discriminate]. simpl.
  intros [= Hab].
  destruct (getSourceRange T c false) as [rc|]; [|discriminate]. simpl.
  destruct (isValidLoc (Start rc) && isValidLoc (End rc)
            && negb (isBeforeInBuffer (End rc) (Start rc))) eqn:Hvc; [|discriminate]. simpl.
  intros [= Hbc]. f_equal.
  apply andb_true_iff in Hvb as [_ Hb].
  rewrite negb_true_iff, isBeforeInBuffer_ge in *. lia.
Qed.

Lemma precedesInSource_trans_witness :
  precedesInSource threeStmtFile 1%nat 2%nat = Ok true
  /\ precedesInSource threeStmtFile 2%nat 3%nat = Ok true
  /\ precedesInSource threeStmtFile 1%nat 3%nat = Ok true.
Proof.
  split; [reflexivity|]. split; [reflexivity|].
  apply (precedesInSource_trans threeStmtFile 1%nat 2%nat 3%nat); reflexivity.
Defined.

Lemma getPriorSibling_iff_witness :
  getPriorSibling threeStmtFile 3%nat = Ok (Some 2%nat)
  /\ priorSibling threeStmtFile 3%nat 2%nat.
Proof.
  split; [reflexivity|].
  apply (proj1 (getPriorSibling_iff threeStmtFile 3%nat 2%nat)). reflexivity.
Defined.

(** ** What a recomputed range covers *)

(** The range of ignored nodes merged into the childless range, as
    [getUncachedSourceRange] does before it looks at the children. *)
Lemma getUncachedSourceRange_inv T self forDebugging r :
  getUncachedSourceRange T self forDebugging = Ok r ->
  exists this cl,
    T !! self = Some this
    /\ getChildlessSourceRange (scopeKind this) = Ok cl
    /\ let merged := if isValid (sourceRangeOfIgnoredASTNodes this)
                     then widen cl (sourceRangeOfIgnoredASTNodes this) else cl in
       match head (storedChildren this), last (storedChildren this) with
       | Some front, Some back =>
         exists frontRange backRange,
           getSourceRange T front forDebugging = Ok frontRange
           /\ getSourceRange T back forDebugging = Ok backRange
           /\ forDebugging || isValidLoc (Start frontRange) = true
           /\ r = if isInvalidLoc (Start merged)
                  then mkRange (Start frontRange) (End backRange)
                  else widen (mkRange (Start frontRange) (End backRange)) merged
       | _, _ => isValidLoc (Start merged) = true /\ r = merged
       end.
Proof.
  unfold getUncachedSourceRange, deref.
  destruct (T !! self) as [this|] eqn:HT; [|discriminate]. simpl.
  destruct (getChildlessSourceRange (scopeKind this)) as [cl|] eqn:Hcl; [|discriminate].
  simpl. intros Hr. exists this, cl. split; [reflexivity|]. split; [exact Hcl|]. simpl.
  destruct (head (storedChildren this)) as [front|].
  - destruct (last (storedChildren this)) as [back|].
    + destruct (getSourceRange T front forDebugging) as [fr|]; [|discriminate].
      simpl in Hr. unfold assertion in Hr.
      destruct (forDebugging || isValidLoc (Start fr)) eqn:Hassert; [|discriminate].
      simpl in Hr.
      destruct (getSourceRange T back forDebugging) as [br|]; [|discriminate].
      simpl in Hr. exists fr, br.
      split; [reflexivity|]. split; [reflexivity|]. split; [exact Hassert|].
      destruct (isInvalidLoc _); congruence.
    + unfold assertion in Hr. destruct (isValidLoc _); [|discriminate].
      simpl in Hr. split; congruence.
  - unfold assertion in Hr. destruct (isValidLoc _); [|discriminate].
    simpl in Hr. split; congruence.
Qed.

Lemma widen_contains_both r other :
  Value (Start (widen r other)) <= Value (Start r)
  /\ Value (Start (widen r other)) <= Value (Start other)
  /\ Value (End r) <= Value (End (widen r other))
  /\ Value (End other) <= Value (End (widen r other)).
Proof.
  unfold widen, isBeforeInBuffer. simpl.
  destruct (N.ltb_spec (Value (Start other)) (Value (Start r))),
           (N.ltb_spec (Value (End r)) (Value (End other))); lia.
Qed.

Lemma widen_start_valid r other :
  isValidLoc (Start r) = true -> isValidLoc (Start other) = true ->
  isValidLoc (Start (widen r other)) = true.
Proof.
  intros Hr Ho. unfold widen. simpl. now destruct (isBeforeInBuffer _ _).
Qed.

(** A range recomputed outside debugging is valid: the cache never
    receives an invalid range from [getUncachedSourceRange]. *)
Theorem getUncachedSourceRange_valid (T : ScopeTree) (self : ScopeId) (r : SourceRange) :
  getUncachedSourceRange T self false = Ok r -> isValid r = true.
Proof.
  intros Hr. destruct (getUncachedSourceRange_inv _ _ _ _ Hr) as (this & cl & _ & _ & Hcases).
  simpl in Hcases. unfold isValid.
  destruct (head (storedChildren this)) as [front|];
    [destruct (last (storedChildren this)) as [back|]|].
  - destruct Hcases as (fr & br & _ & _ & Hstart & ->). simpl in Hstart.
    unfold isInvalidLoc.
    destruct (isValidLoc (Start (if isValid (sourceRangeOfIgnoredASTNodes this)
                                 then widen cl (sourceRangeOfIgnoredASTNodes this)
                                 else cl))) eqn:Hm; simpl; [|assumption].
    now apply widen_start_valid.
  - now destruct Hcases as [Hv ->].
  - now destruct Hcases as [Hv ->].
Qed.

Lemma getUncachedSourceRange_valid_witness :
  getUncachedSourceRange fileTree 0%nat false = Ok (R 1 100) /\ isValid (R 1 100) = true.
Proof.
  split; [reflexivity|].
  apply (getUncachedSourceRange_valid fileTree 0%nat (R 1 100)). reflexivity.
Defined.

(** The recomputed range contains the range from the first child's start
    to the last child's end, and, when the childless range is valid, the
    childless range and every valid range of ignored nodes. *)
Theorem getUncachedSourceRange_covers
    (T : ScopeTree) (self : ScopeId) (this : ASTScopeImpl) (cl r : SourceRange)
    (forDebugging : bool) :
  T !! self = Some this ->
  getChildlessSourceRange (scopeKind this) = Ok cl ->
  getUncachedSourceRange T self forDebugging = Ok r ->
  (forall front back frontRange backRange,
      head (storedChildren this) = Some front ->
      last (storedChildren this) = Some back ->
      getSourceRange T front forDebugging = Ok frontRange ->
      getSourceRange T back forDebugging = Ok backRange ->
      contains r (mkRange (Start frontRange) (End backRange)))
  /\ (isValid cl = true -> contains r cl)
  /\ (isValid cl = true -> isValid (sourceRangeOfIgnoredASTNodes this) = true ->
      contains r (sourceRangeOfIgnoredASTNodes this)).
Proof.
  intros HT Hcl Hr.
  destruct (getUncachedSourceRange_inv _ _ _ _ Hr) as (this' & cl' & HT' & Hcl' & Hcases).
  rewrite HT in HT'. injection HT' as <-. rewrite Hcl in Hcl'. injection Hcl' as <-.
  simpl in Hcases.
  set (ign := sourceRangeOfIgnoredASTNodes this) in *.
  set (merged := if isValid ign then widen cl ign else cl) in *.
  assert (Hmerged_cl : contains merged cl).
  { unfold merged, contains. destruct (isValid ign); [|lia].
    pose proof (widen_contains_both cl ign). lia. }
  assert (Hmerged_ign : isValid ign = true -> contains merged ign).
  { unfold merged, contains. intros ->. pose proof (widen_contains_both cl ign). lia. }
  assert (Hmerged_valid : isValid cl = true -> isValidLoc (Start merged) = true).
  { unfold merged. intros Hv. destruct (isValid ign) eqn:Hi; [|exact Hv].
    now apply widen_start_valid. }
  assert (Hwhole : isValid cl = true -> contains r merged).
  { intros Hv. specialize (Hmerged_valid Hv).
    destruct (head (storedChildren this)) as [front|];
      [destruct (last (storedChildren this)) as [back|]|].
    - destruct Hcases as (fr & br & _ & _ & _ & ->).
      unfold isInvalidLoc. rewrite Hmerged_valid. simpl.
      pose proof (widen_contains_both (mkRange (Start fr) (End br)) merged).
      unfold contains. lia.
    - destruct Hcases as [_ ->]. unfold contains. lia.
    - destruct Hcases as [_ ->]. unfold contains. lia. }
  split; [|split].
  - intros front back fr br Hfront Hback Hfr Hbr. rewrite Hfront, Hback in Hcases.
    destruct Hcases as (fr' & br' & Hfr' & Hbr' & _ & ->).
    rewrite Hfr in Hfr'. injection Hfr' as <-. rewrite Hbr in Hbr'. injection Hbr' as <-.
    destruct (isInvalidLoc (Start merged)).
    + unfold contains. simpl. lia.
    + pose proof (widen_contains_both (mkRange (Start fr) (End br)) merged).
      unfold contains. simpl in *. lia.
  - intros Hv. specialize (Hwhole Hv). unfold contains in *. lia.
  - intros Hv Hi. specialize (Hwhole Hv). specialize (Hmerged_ign Hi).
    unfold contains in *. lia.
Qed.

Lemma getUncachedSourceRange_covers_witness :
  contains (R 1 100) (mkRange (L 5) (L 20)) /\ contains (R 1 100) (R 1 100).
Proof.
  pose proof (getUncachedSourceRange_covers fileTree 0%nat fileScope (R 1 100) (R 1 100) false
                eq_refl eq_refl eq_refl) as (Hkids & Hcl & _).
  split.
  - apply (Hkids 1%nat 2%nat (R 5 10) (R 12 20)); reflexivity.
  - apply Hcl. reflexivity.
Defined.

(** ** What the caching can end in *)

Lemma getChildlessSourceRange_localFault k f :
  getChildlessSourceRange k = Fatal f -> localFault f.
Proof.
  destruct k; simpl; try discriminate;
    unfold GenericParamScope.getChildlessSourceRange,
      GTXScope.getChildlessSourceRangeOf,
      AbstractFunctionDeclScope.getChildlessSourceRange,
      AbstractFunctionParamsScope.getChildlessSourceRange,
      WhileConditionalClauseScope.getChildlessSourceRange,
      IfConditionalClauseScope.getChildlessSourceRange,
      GuardConditionalClauseScope.getChildlessSourceRange,
      ClosureParametersScope.getChildlessSourceRange,
      ConditionalClauseScope.startLocAccordingToCondition;
    outcome_cases; intros [= <-]; exact I.
Qed.

Lemma getUncachedSourceRange_localFault T self forDebugging f :
  getUncachedSourceRange T self forDebugging = Fatal f -> localFault f.
Proof.
  unfold getUncachedSourceRange, getSourceRange.
  pose proof (getChildlessSourceRange_localFault) as Hk.
  unfold mbind, Outcome_bind, deref at 1.
  destruct (T !! self) as [this|]; [|intros [= <-]; exact I].
  specialize (Hk (scopeKind this)).
  destruct (getChildlessSourceRange (scopeKind this)) as [cl|g];
    [|intros [= <-]; now apply Hk].
  outcome_cases; intros [= <-]; exact I.
Qed.

Lemma getSourceRange_insert_ne T self n j forDebugging :
  self <> j ->
  getSourceRange (<[self := n]> T) j forDebugging = getSourceRange T j forDebugging.
Proof.
  intros Hne. unfold getSourceRange, deref. now rewrite lookup_insert_ne.
Qed.

Lemma head_elem_of {A} (l : list A) x : head l = Some x -> x ∈ l.
Proof. destruct l; [discriminate|]. intros [= ->]. left. Qed.

Lemma last_elem_of {A} (l : list A) x : last l = Some x -> x ∈ l.
Proof. intros H. apply last_Some in H as [l' ->]. apply elem_of_app; right; left. Qed.

(** The recomputed range starts no later than the first child and ends no
    earlier than the last one. *)
Lemma getUncachedSourceRange_bounds_children
    (T : ScopeTree) (self : ScopeId) (this : ASTScopeImpl) (r : SourceRange)
    (front back : ScopeId) (frontRange backRange : SourceRange) forDebugging :
  T !! self = Some this ->
  getUncachedSourceRange T self forDebugging = Ok r ->
  head (storedChildren this) = Some front ->
  last (storedChildren this) = Some back ->
  getSourceRange T front forDebugging = Ok frontRange ->
  getSourceRange T back forDebugging = Ok backRange ->
  Value (Start r) <= Value (Start frontRange) /\ Value (End backRange) <= Value (End r).
Proof.
  intros HT Hr Hfront Hback Hfr Hbr.
  destruct (getUncachedSourceRange_inv _ _ _ _ Hr) as (this' & cl & HT' & _ & Hcases).
  rewrite HT in HT'. injection HT' as <-. simpl in Hcases.
  rewrite Hfront, Hback in Hcases.
  destruct Hcases as (fr' & br' & Hfr' & Hbr' & _ & ->).
  rewrite Hfr in Hfr'. injection Hfr' as <-. rewrite Hbr in Hbr'. injection Hbr' as <-.
  destruct (isInvalidLoc _).
  - simpl. lia.
  - match goal with
    | |- context [widen ?x ?y] => pose proof (widen_contains_both x y) as Hw
    end.
    simpl in *. lia.
Qed.

(** The children of a scope keep their cached ranges when the cache of the
    scope is written. *)
Lemma child_cache_kept (T : ScopeTree) (self c : ScopeId) (this n : ASTScopeImpl) :
  wellFormed T -> T !! self = Some this -> c ∈ storedChildren this ->
  cachedRange (<[self := n]> T) c = cachedRange T c.
Proof.
  intros Hwf HT Hc. pose proof (wellFormed_child _ _ _ _ Hwf HT Hc) as Hlt.
  unfold cachedRange. rewrite lookup_insert_ne; [reflexivity|].
  intros Heq. rewrite Heq in Hlt. lia.
Qed.

(** What an abort of the check of the children tells. *)
Lemma verifyThatChildrenAreContained_aborted (T : ScopeTree) (self : ScopeId) report :
  verifyThatChildrenAreContained T self = Fatal (Aborted report) ->
  exists this front back r frontRange backRange,
    T !! self = Some this
    /\ head (storedChildren this) = Some front
    /\ last (storedChildren this) = Some back
    /\ cachedRange T self = Some r
    /\ cachedRange T front = Some frontRange
    /\ cachedRange T back = Some backRange
    /\ rangeContains r (mkRange (Start frontRange) (End backRange)) = false
    /\ report = ChildrenNotContained
                  (if bool_decide (length (storedChildren this) = 1%nat)
                   then OnlyChild front else FirstAndLastChild front back)
                  self.
Proof.
  unfold verifyThatChildrenAreContained, deref.
  destruct (T !! self) as [this|] eqn:HT; [|discriminate]. simpl.
  destruct (head (storedChildren this)) as [front|] eqn:Hfront; [|discriminate].
  destruct (last (storedChildren this)) as [back|] eqn:Hback; [|discriminate].
  destruct (getSourceRange T front false) as [fr|f] eqn:Hfr; simpl.
  2: { intros [= ->]. revert Hfr. unfold getSourceRange. outcome_cases. }
  destruct (getSourceRange T back false) as [br|f] eqn:Hbr; simpl.
  2: { intros [= ->]. revert Hbr. unfold getSourceRange. outcome_cases. }
  destruct (getSourceRange T self false) as [r|f] eqn:Hr; simpl.
  2: { intros [= ->]. revert Hr. unfold getSourceRange. outcome_cases. }
  destruct (rangeContains r _) eqn:Hc; [discriminate|].
  intros [= <-]. exists this, front, back, r, fr, br.
  repeat split; try reflexivity; try assumption; now apply getSourceRange_cachedRange.
Qed.

(** Right after the recomputation the check of the children cannot fail
    when the range of the children is in order, the first child starting no
    later than the last child ends. *)
Theorem verifyThatChildrenAreContained_after_recompute
    (T : ScopeTree) (self : ScopeId) (this : ASTScopeImpl) (r : SourceRange) :
  wellFormed T ->
  T !! self = Some this ->
  getUncachedSourceRange T self false = Ok r ->
  (forall front back frontRange backRange,
      head (storedChildren this) = Some front ->
      last (storedChildren this) = Some back ->
      cachedRange T front = Some frontRange ->
      cachedRange T back = Some backRange ->
      Value (Start frontRange) <= Value (End backRange)) ->
  verifyThatChildrenAreContained (<[self := setCachedSourceRange (Some r) this]> T) self
  = Ok true.
Proof.
  intros Hwf HT Hr Horder.
  set (T' := <[self := setCachedSourceRange (Some r) this]> T).
  destruct (verifyThatChildrenAreContained T' self) as [b|f] eqn:Hcheck.
  - now destruct (verifyThatChildrenAreContained_true _ _ _ Hcheck) as [-> _].
  - exfalso. revert Hcheck. unfold verifyThatChildrenAreContained, deref, T'.
    rewrite lookup_insert_eq. simpl.
    destruct (head (storedChildren this)) as [front|] eqn:Hfront; [|discriminate].
    destruct (last (storedChildren this)) as [back|] eqn:Hback; [|discriminate].
    destruct (getUncachedSourceRange_inv _ _ _ _ Hr) as (this' & cl & HT' & _ & Hcases).
    rewrite HT in HT'. injection HT' as <-. simpl in Hcases.
    rewrite Hfront, Hback in Hcases. destruct Hcases as (fr & br & Hfr & Hbr & _ & _).
    pose proof (getUncachedSourceRange_bounds_children _ _ _ _ _ _ _ _ _
                  HT Hr Hfront Hback Hfr Hbr) as [Hs He].
    pose proof (getSourceRange_cachedRange _ _ _ Hfr) as Hcf.
    pose proof (getSourceRange_cachedRange _ _ _ Hbr) as Hcb.
    pose proof (Horder front back fr br eq_refl eq_refl Hcf Hcb) as Hin.
    assert (Hf' : cachedRange T' front = Some fr).
    { unfold T'. rewrite (child_cache_kept T self front this); auto using head_elem_of. }
    assert (Hb' : cachedRange T' back = Some br).
    { unfold T'. rewrite (child_cache_kept T self back this); auto using last_elem_of. }
    fold T'.
    rewrite (cachedRange_getSourceRange _ _ _ false Hf'),
            (cachedRange_getSourceRange _ _ _ false Hb'). simpl.
    unfold getSourceRange, deref, T'. rewrite lookup_insert_eq. simpl.
    assert (rangeContains r (mkRange (Start fr) (End br)) = true) as ->; [|discriminate].
    apply rangeContains_liesWithin. unfold liesWithin. simpl. lia.
Qed.

Lemma verifyThatChildrenAreContained_after_recompute_witness :
  verifyThatChildrenAreContained
    (<[0%nat := setCachedSourceRange (Some (R 1 100)) fileScope]> fileTree) 0%nat = Ok true.
Proof.
  apply (verifyThatChildrenAreContained_after_recompute fileTree 0%nat fileScope (R 1 100));
    [unfold wellFormed; compute_done | reflexivity | reflexivity |].
  intros front back frontRange backRange Hf Hb Hfr Hbr.
  vm_compute in Hf, Hb. injection Hf as <-. injection Hb as <-.
  vm_compute in Hfr, Hbr. injection Hfr as <-. injection Hbr as <-.
  vm_compute. discriminate.
Defined.

Lemma getPriorSibling_localFault T self f :
  getPriorSibling T self = Fatal f -> localFault f.
Proof.
  unfold getPriorSibling. outcome_cases; intros [= <-]; exact I.
Qed.

Lemma precedesInSource_localFault T a b f :
  precedesInSource T a b = Fatal f -> localFault f.
Proof.
  unfold precedesInSource, hasValidSourceRange, getSourceRange.
  outcome_cases; intros [= <-]; exact I.
Qed.

(** When the caching of a scope aborts, it is either for the order of
    siblings, and the report names the sibling immediately before the scope,
    the scope and their parent, or the range of the children is the wrong
    way round, the last child ending before the first one starts, and the
    report names the children and the scope; children that are in order are
    never reported as not contained. *)
Theorem cacheSourceRange_aborts_out_of_order
    (T : ScopeTree) (self : ScopeId) (report : Report) :
  wellFormed T ->
  cacheSourceRange T self = Fatal (Aborted report) ->
  (exists this p prior,
      T !! self = Some this /\ parent this = Some p
      /\ priorSibling T self prior
      /\ report = OutOfOrderNodes prior self p)
  \/ (exists this front back frontRange backRange,
        T !! self = Some this
        /\ head (storedChildren this) = Some front
        /\ last (storedChildren this) = Some back
        /\ cachedRange T front = Some frontRange
        /\ cachedRange T back = Some backRange
        /\ Value (End backRange) < Value (Start frontRange)
        /\ report = ChildrenNotContained
                      (if bool_decide (length (storedChildren this) = 1%nat)
                       then OnlyChild front else FirstAndLastChild front back)
                      self).
Proof.
  intros Hwf. unfold cacheSourceRange.
  destruct (getUncachedSourceRange T self false) as [r|f] eqn:Hr; simpl.
  2: { intros [= ->]. now apply getUncachedSourceRange_localFault in Hr. }
  unfold deref. destruct (T !! self) as [this|] eqn:HT; simpl; [|discriminate].
  pose proof (sameStructure_insert T self this (Some r) HT) as Hs.
  set (T' := <[self := setCachedSourceRange (Some r) this]> T) in *.
  assert (Hself : T' !! self = Some (setCachedSourceRange (Some r) this))
    by apply lookup_insert_eq.
  unfold verifySourceRange.
  destruct (verifyThatChildrenAreContained T' self) as [b|f] eqn:Hcheck; simpl.
  - destruct (verifyThatChildrenAreContained_true _ _ _ Hcheck) as [-> _].
    unfold verifyThatThisNodeComeAfterItsPriorSibling.
    destruct (getPriorSibling T' self) as [[prior|]|f] eqn:Hprior; simpl.
    + destruct (precedesInSource T' prior self) as [[|]|f] eqn:Hprec; simpl;
        try discriminate.
      * unfold deref. rewrite Hself. simpl.
        destruct (parent this) as [p|] eqn:Hp; simpl; [|discriminate].
        intros [= <-]. left. exists this, p, prior. repeat split; try assumption.
        apply (priorSibling_sameStructure T' T); [now apply sameStructure_sym|].
        now apply getPriorSibling_Some.
      * intros [= ->]. now apply precedesInSource_localFault in Hprec.
    + discriminate.
    + intros [= ->]. now apply getPriorSibling_localFault in Hprior.
  - intros [= ->]. right.
    destruct (verifyThatChildrenAreContained_aborted _ _ _ Hcheck)
      as (this' & front & back & r' & fr & br & HT' & Hfront & Hback & Hr' & Hfr & Hbr
          & Hnot & ->).
    rewrite Hself in HT'. injection HT' as <-. simpl in Hfront, Hback.
    unfold cachedRange in Hr'. rewrite Hself in Hr'. injection Hr' as <-.
    unfold T' in Hfr, Hbr.
    rewrite (child_cache_kept T self front this) in Hfr; auto using head_elem_of.
    rewrite (child_cache_kept T self back this) in Hbr; auto using last_elem_of.
    exists this, front, back, fr, br. simpl. repeat split; try assumption.
    pose proof (getUncachedSourceRange_bounds_children _ _ _ _ _ _ _ _ _ HT Hr Hfront Hback
                  (cachedRange_getSourceRange _ _ _ false Hfr)
                  (cachedRange_getSourceRange _ _ _ false Hbr)) as [Hlo Hhi].
    destruct (N.lt_ge_cases (Value (End br)) (Value (Start fr))) as [Hlt|Hge];
      [exact Hlt|].
    exfalso. assert (rangeContains r (mkRange (Start fr) (End br)) = true) as Hyes.
    { apply rangeContains_liesWithin. unfold liesWithin. simpl. lia. }
    congruence.
Qed.

Lemma cacheSourceRange_aborts_out_of_order_witness :
  (exists this p prior,
      siblingsOutOfOrder !! 2%nat = Some this /\ parent this = Some p
      /\ priorSibling siblingsOutOfOrder 2%nat prior
      /\ OutOfOrderNodes 1%nat 2%nat 0%nat = OutOfOrderNodes prior 2%nat p)
  \/ (exists this front back frontRange backRange,
        siblingsOutOfOrder !! 2%nat = Some this
        /\ head (storedChildren this) = Some front
        /\ last (storedChildren this) = Some back
        /\ cachedRange siblingsOutOfOrder front = Some frontRange
        /\ cachedRange siblingsOutOfOrder back = Some backRange
        /\ Value (End backRange) < Value (Start frontRange)
        /\ OutOfOrderNodes 1%nat 2%nat 0%nat
           = ChildrenNotContained
               (if bool_decide (length (storedChildren this) = 1%nat)
                then OnlyChild front else FirstAndLastChild front back)
               2%nat).
Proof.
  apply (cacheSourceRange_aborts_out_of_order siblingsOutOfOrder 2%nat);
    [unfold wellFormed; compute_done | reflexivity].
Defined.

(** A statement 5..10 whose children are cached at 12..15 and 6..8: the
    recomputed range is 5..10, the range of the children runs from 12 to 8,
    and the caching aborts for the children. *)
Example invertedChildren_aborts :
  getUncachedSourceRange invertedChildren 0%nat false = Ok (R 5 10)
  /\ cacheSourceRange invertedChildren 0%nat
     = Fatal (Aborted (ChildrenNotContained (FirstAndLastChild 1%nat 2%nat) 0%nat)).
Proof. split; reflexivity. Qed.

(** ** What a computation on a scope reads *)

Lemma sameStructure_node (T U : ScopeTree) (j : ScopeId) :
  sameStructure T U ->
  match T !! j, U !! j with
  | Some n, Some n' => n' = setCachedSourceRange (cachedSourceRange n') n
  | None, None => True
  | _, _ => False
  end.
Proof.
  intros Hs. specialize (Hs j).
  destruct (T !! j) as [n|], (U !! j) as [n'|]; simpl in Hs; try discriminate; [|exact I].
  destruct n, n'. simpl in *. injection Hs as -> -> -> ->. reflexivity.
Qed.

Lemma getSourceRange_agree (T U : ScopeTree) (j : ScopeId) forDebugging :
  U !! j = T !! j -> getSourceRange U j forDebugging = getSourceRange T j forDebugging.
Proof. unfold getSourceRange, deref. now intros ->. Qed.

(** The recomputation reads the scope itself, but not its cached range, and
    the cached ranges of its children. *)
Lemma getUncachedSourceRange_agree (T U : ScopeTree) (self : ScopeId) forDebugging :
  sameStructure T U ->
  (forall this c, T !! self = Some this -> c ∈ storedChildren this -> U !! c = T !! c) ->
  getUncachedSourceRange U self forDebugging = getUncachedSourceRange T self forDebugging.
Proof.
  intros Hs Hkids. pose proof (sameStructure_node _ _ self Hs) as Hnode.
  unfold getUncachedSourceRange, deref.
  destruct (T !! self) as [this|] eqn:HT, (U !! self) as [u|] eqn:HU;
    try contradiction; [|reflexivity].
  rewrite Hnode. simpl.
  destruct (getChildlessSourceRange (scopeKind this)) as [cl|]; [|reflexivity]. simpl.
  destruct (head (storedChildren this)) as [front|] eqn:Hfront; [|reflexivity].
  destruct (last (storedChildren this)) as [back|] eqn:Hback; [|reflexivity].
  rewrite (getSourceRange_agree T U front), (getSourceRange_agree T U back); [reflexivity|..].
  - apply (Hkids this); [reflexivity | now apply last_elem_of].
  - apply (Hkids this); [reflexivity | now apply head_elem_of].
Qed.

Lemma onParentChain_inv (T : ScopeTree) (self j : ScopeId) :
  onParentChain T self j ->
  j = self \/ exists this p, T !! self = Some this /\ parent this = Some p
                             /\ onParentChain T p j.
Proof.
  intros H. inversion H as [s | s this p a HT Hp Hrest]; subst; [now left|].
  right. now exists this, p.
Qed.

(** With identifiers in creation order, a scope other than [self] with an
    identifier above that of the parent of [self] is not on the parent
    chain of [self]. *)
Lemma off_chain (T : ScopeTree) (self : ScopeId) this (j : ScopeId) :
  wellFormed T -> T !! self = Some this -> j <> self ->
  (forall p, parent this = Some p -> (p < j)%nat) ->
  ~ onParentChain T self j.
Proof.
  intros Hwf HT Hne Habove Hchain.
  destruct (onParentChain_inv _ _ _ Hchain) as [-> | (this' & p & HT' & Hp & Hrest)];
    [contradiction|].
  rewrite HT in HT'. injection HT' as <-.
  pose proof (onParentChain_le _ _ _ Hwf Hrest). specialize (Habove p Hp). lia.
Qed.

Lemma child_off_chain (T : ScopeTree) (self : ScopeId) this (c : ScopeId) :
  wellFormed T -> T !! self = Some this -> c ∈ storedChildren this ->
  ~ onParentChain T self c.
Proof.
  intros Hwf HT Hc Hchain.
  pose proof (wellFormed_child _ _ _ _ Hwf HT Hc).
  pose proof (onParentChain_le _ _ _ Hwf Hchain). lia.
Qed.

(** The verification reads the scope, its children, the list of children
    of its parent and the sibling before it. *)
Lemma verifySourceRange_agree (T U : ScopeTree) (self : ScopeId) :
  wellFormed T ->
  sameStructure T U ->
  U !! self = T !! self ->
  (forall j, ~ onParentChain T self j -> U !! j = T !! j) ->
  verifySourceRange U self = verifySourceRange T self.
Proof.
  intros Hwf Hs Hself Hoff.
  assert (Hkids : verifyThatChildrenAreContained U self = verifyThatChildrenAreContained T self).
  { unfold verifyThatChildrenAreContained, deref. rewrite Hself.
    destruct (T !! self) as [this|] eqn:HT; [|reflexivity]. simpl.
    destruct (head (storedChildren this)) as [front|] eqn:Hfront; [|reflexivity].
    destruct (last (storedChildren this)) as [back|] eqn:Hback; [|reflexivity].
    assert (Hf : U !! front = T !! front).
    { apply Hoff. apply (child_off_chain _ _ this); auto using head_elem_of. }
    assert (Hb : U !! back = T !! back).
    { apply Hoff. apply (child_off_chain _ _ this); auto using last_elem_of. }
    now rewrite (getSourceRange_agree T U front false Hf),
                (getSourceRange_agree T U back false Hb),
                (getSourceRange_agree T U self false (eq_trans Hself (eq_sym HT))). }
  assert (Hprior : getPriorSibling U self = getPriorSibling T self).
  { unfold getPriorSibling, deref. rewrite Hself.
    destruct (T !! self) as [this|] eqn:HT; [|reflexivity]. simpl.
    destruct (parent this) as [p|]; [|reflexivity].
    pose proof (sameStructure_node _ _ p Hs) as Hnode.
    destruct (T !! p) as [pn|], (U !! p) as [pn'|]; try contradiction; [|reflexivity].
    rewrite Hnode. reflexivity. }
  unfold verifySourceRange. rewrite Hkids.
  destruct (verifyThatChildrenAreContained T self) as [[|]|]; simpl; try reflexivity.
  unfold verifyThatThisNodeComeAfterItsPriorSibling. rewrite Hprior.
  destruct (getPriorSibling T self) as [[prior|]|] eqn:Hp; simpl; try reflexivity.
  assert (Hagree : U !! prior = T !! prior).
  { destruct (decide (prior = self)) as [->|Hne]; [assumption|].
    apply Hoff. apply getPriorSibling_Some in Hp.
    destruct Hp as (this & p & pn & i & HT & Hpar & HTp & _ & _ & Hi).
    apply (off_chain _ _ this); try assumption.
    intros p' Hp'. rewrite Hpar in Hp'. injection Hp' as <-.
    apply (wellFormed_child _ _ _ _ Hwf HTp). apply list_elem_of_lookup. now exists i. }
  assert (Hprec : precedesInSource U prior self = precedesInSource T prior self).
  { unfold precedesInSource, hasValidSourceRange.
    now rewrite (getSourceRange_agree T U prior false Hagree),
                (getSourceRange_agree T U self false Hself). }
  rewrite Hprec. unfold deref. now rewrite Hself.
Qed.

(** ** What a caching pass depends on *)

(** Two passes from the same scope on trees that differ only in the cached
    ranges on the parent chain go the same way, step by step. *)
Lemma cacheSourceRangesOfAncestors_agree (fuel : nat) :
  forall (T U : ScopeTree) (self : ScopeId),
    wellFormed T ->
    sameStructure T U ->
    (forall j, ~ onParentChain T self j -> U !! j = T !! j) ->
    cacheSourceRangesOfAncestors fuel U self = cacheSourceRangesOfAncestors fuel T self.
Proof.
  induction fuel as [|fuel IH]; intros T U self Hwf Hs Hoff; [reflexivity|].
  simpl. unfold cacheSourceRange.
  assert (Hun : getUncachedSourceRange U self false = getUncachedSourceRange T self false).
  { apply getUncachedSourceRange_agree; [assumption|].
    intros this c HT Hc. apply Hoff. now apply (child_off_chain _ _ this). }
  rewrite Hun. destruct (getUncachedSourceRange T self false) as [r|]; [|reflexivity].
  simpl. pose proof (sameStructure_node _ _ self Hs) as Hnode. unfold deref.
  destruct (T !! self) as [this|] eqn:HT, (U !! self) as [u|] eqn:HU;
    try contradiction; [|reflexivity].
  simpl.
  set (Ta := <[self := setCachedSourceRange (Some r) this]> T).
  set (Ua := <[self := setCachedSourceRange (Some r) u]> U).
  assert (HselfA : Ua !! self = Ta !! self).
  { unfold Ua, Ta. rewrite !lookup_insert_eq, Hnode. reflexivity. }
  assert (HsTa : sameStructure T Ta) by now apply sameStructure_insert.
  assert (HsA : sameStructure Ta Ua).
  { apply (sameStructure_trans _ T); [now apply sameStructure_sym|].
    apply (sameStructure_trans _ U); [assumption | now apply sameStructure_insert]. }
  pose proof (wellFormed_sameStructure _ _ HsTa Hwf) as HwfA.
  assert (Hother : forall j, j <> self -> ~ onParentChain T self j -> Ua !! j = Ta !! j).
  { intros j Hne Hj. unfold Ua, Ta. rewrite !lookup_insert_ne by congruence. now apply Hoff. }
  rewrite (verifySourceRange_agree Ta Ua self HwfA HsA HselfA).
  2: { intros j Hj. destruct (decide (j = self)) as [->|Hne]; [assumption|].
       apply Hother; [assumption|]. intros Hc. apply Hj.
       now apply (onParentChain_sameStructure T). }
  destruct (verifySourceRange Ta self) as [b|]; [|reflexivity]. simpl.
  rewrite HselfA.
  assert (HTa : Ta !! self = Some (setCachedSourceRange (Some r) this))
    by apply lookup_insert_eq.
  rewrite HTa. simpl.
  destruct (parent this) as [p|] eqn:Hp.
  - apply IH; try assumption.
    intros j Hj. destruct (decide (j = self)) as [->|Hne]; [assumption|].
    apply Hother; [assumption|]. intros Hc.
    destruct (onParentChain_inv _ _ _ Hc) as [-> | (this' & p' & HT' & Hp' & Hrest)];
      [contradiction|].
    rewrite HT in HT'. injection HT' as <-. rewrite Hp in Hp'. injection Hp' as <-.
    apply Hj. now apply (onParentChain_sameStructure T).
  - f_equal. apply map_eq. intros j.
    destruct (decide (j = self)) as [->|Hne]; [assumption|].
    apply Hother; [assumption|]. intros Hc.
    destruct (onParentChain_inv _ _ _ Hc) as [-> | (this' & p' & HT' & Hp' & _)];
      [contradiction|].
    rewrite HT in HT'. injection HT' as <-. congruence.
Qed.

(** The outcome of a caching pass is determined by the structure of the
    tree and the scopes off the parent chain: two trees that differ only in
    the cached ranges on the chain give the same outcome, the same tree
    included. *)
Theorem cacheSourceRangesOfAncestors_local (fuel : nat) :
  forall (T U : ScopeTree) (self : ScopeId),
    wellFormed T ->
    sameStructure T U ->
    (forall j, ~ onParentChain T self j -> U !! j = T !! j) ->
    cacheSourceRangesOfAncestors fuel U self = cacheSourceRangesOfAncestors fuel T self.
Proof.
  intros T U self Hwf Hs Hoff.
  now apply cacheSourceRangesOfAncestors_agree.
Qed.

(** A second pass from the same scope changes nothing. *)
Theorem cacheSourceRangesOfAncestors_idempotent
    (fuel : nat) (T T' : ScopeTree) (self : ScopeId) :
  wellFormed T ->
  cacheSourceRangesOfAncestors fuel T self = Ok T' ->
  cacheSourceRangesOfAncestors fuel T' self = Ok T'.
Proof.
  intros Hwf Hrun. destruct (cacheSourceRangesOfAncestors_off_chain _ _ _ _ Hrun) as [Hs Hoff].
  rewrite <- Hrun. now apply cacheSourceRangesOfAncestors_agree.
Qed.

Lemma cacheSourceRangesOfAncestors_idempotent_witness :
  cacheSourceRangesOfAncestors 2 fileTreeUncached 1%nat = Ok fileTree
  /\ cacheSourceRangesOfAncestors 2 fileTree 1%nat = Ok fileTree.
Proof.
  assert (Hrun : cacheSourceRangesOfAncestors 2 fileTreeUncached 1%nat = Ok fileTree)
    by (vm_compute; reflexivity).
  split; [exact Hrun|].
  apply (cacheSourceRangesOfAncestors_idempotent 2 fileTreeUncached fileTree 1%nat);
    [unfold wellFormed; compute_done | exact Hrun].
Defined.

(** ** Invalidation and the next pass *)

(** The invalidation keeps the structure of the tree, changes nothing off
    the parent chain, and leaves every scope on the chain with the empty
    range in its cache. *)
Lemma clearCachedSourceRangesOfAncestors_chain (fuel : nat) :
  forall (T : ScopeTree) (self : ScopeId) (T' : ScopeTree),
    clearCachedSourceRangesOfAncestors fuel T self = Ok T' ->
    sameStructure T T'
    /\ (forall j, ~ onParentChain T self j -> T' !! j = T !! j)
    /\ (forall a, onParentChain T self a -> cachedRange T' a = Some noRange).
Proof.
  induction fuel as [|fuel IH]; intros T self T' Hrun; [discriminate|].
  pose proof Hrun as Hrun0. simpl in Hrun. unfold clearSourceRangeCache, deref in Hrun.
  destruct (T !! self) as [this|] eqn:HT; [|discriminate]. simpl in Hrun.
  rewrite lookup_insert_eq in Hrun. simpl in Hrun.
  set (T1 := <[self := setCachedSourceRange (Some (rangeOfLoc noLoc)) this]> T) in *.
  assert (Hs1 : sameStructure T T1) by now apply sameStructure_insert.
  assert (Hne1 : forall j, j <> self -> T1 !! j = T !! j)
    by (intros j Hj; apply lookup_insert_ne; congruence).
  assert (Hself1 : cachedRange T1 self = Some noRange)
    by (unfold cachedRange, T1; now rewrite lookup_insert_eq).
  destruct (parent this) as [p|] eqn:Hp.
  - destruct (IH _ _ _ Hrun) as (Hs2 & Hoff & Hon).
    split; [now apply (sameStructure_trans _ T1)|]. split.
    + intros j Hj. assert (j <> self) by (intros ->; apply Hj; constructor).
      rewrite Hoff; [now apply Hne1|].
      intros Hc. apply Hj. apply (chain_parent _ _ this p); try assumption.
      apply (onParentChain_sameStructure T1 T); [now apply sameStructure_sym | assumption].
    + intros a Ha.
      destruct (onParentChain_inv _ _ _ Ha) as [-> | (this' & p' & HT' & Hp' & Hrest)].
      * destruct (clearCachedSourceRangesOfAncestors_only_cache _ _ _ _ Hrun self)
          as [Heq | (n & Hn & Hn')].
        -- unfold cachedRange in *. now rewrite Heq.
        -- unfold cachedRange. now rewrite Hn'.
      * rewrite HT in HT'. injection HT' as <-. rewrite Hp in Hp'. injection Hp' as <-.
        apply Hon. now apply (onParentChain_sameStructure T).
  - injection Hrun as <-. split; [assumption|]. split.
    + intros j Hj. apply Hne1. intros ->. apply Hj. constructor.
    + intros a Ha.
      destruct (onParentChain_inv _ _ _ Ha) as [-> | (this' & p' & HT' & Hp' & _)];
        [assumption|].
      rewrite HT in HT'. injection HT' as <-. congruence.
Qed.

Lemma sameStructure_is_Some (T T' : ScopeTree) (j : ScopeId) :
  sameStructure T T' -> is_Some (T !! j) -> is_Some (T' !! j).
Proof.
  intros Hs [n Hn]. destruct (sameStructure_lookup _ _ _ _ Hs Hn) as (n' & Hn' & _).
  now exists n'.
Qed.

Lemma parentsPresent_sameStructure (T T' : ScopeTree) :
  sameStructure T T' -> parentsPresent T -> parentsPresent T'.
Proof.
  intros Hs Hpp j n' Hj.
  destruct (sameStructure_lookup _ _ _ _ (sameStructure_sym _ _ Hs) Hj) as (n & Hn & Hp & _).
  specialize (Hpp j n Hn). unfold parentPresent in *. rewrite Hp in Hpp.
  destruct (parent n') as [p|]; [|reflexivity].
  apply bool_decide_eq_true in Hpp. apply bool_decide_eq_true.
  now apply (sameStructure_is_Some T).
Qed.

(** On a tree whose parent pointers lead to scopes of the tree, with
    identifiers in creation order, the invalidation comes back once the
    bound exceeds the identifier of the scope. *)
Lemma clearCachedSourceRangesOfAncestors_returns (fuel : nat) :
  forall (T : ScopeTree) (self : ScopeId),
    wellFormed T -> parentsPresent T -> is_Some (T !! self) -> (self < fuel)%nat ->
    exists T', clearCachedSourceRangesOfAncestors fuel T self = Ok T'.
Proof.
  induction fuel as [|fuel IH]; intros T self Hwf Hpp [this HT] Hlt; [lia|].
  simpl. unfold clearSourceRangeCache, deref. rewrite HT. simpl.
  rewrite lookup_insert_eq. simpl.
  pose proof (sameStructure_insert T self this (Some (rangeOfLoc noLoc)) HT) as Hs.
  destruct (parent this) as [p|] eqn:Hp; [|eauto].
  apply IH.
  - now apply (wellFormed_sameStructure T).
  - now apply (parentsPresent_sameStructure T).
  - apply (sameStructure_is_Some T); [assumption|].
    specialize (Hpp self this HT). unfold parentPresent in Hpp. rewrite Hp in Hpp.
    now apply bool_decide_eq_true in Hpp.
  - pose proof (wellFormed_parent _ _ _ _ Hwf HT Hp). lia.
Qed.

(** The invalidation of the parent chain of a scope of the tree comes
    back; it has kept the structure of the tree, changed nothing off the
    parent chain, and left every scope on the chain with the empty range in
    its cache. *)
Theorem clearCachedSourceRangesOfAncestors_total
    (fuel : nat) (T : ScopeTree) (self : ScopeId) :
  wellFormed T -> parentsPresent T -> is_Some (T !! self) -> (self < fuel)%nat ->
  exists T',
    clearCachedSourceRangesOfAncestors fuel T self = Ok T'
    /\ sameStructure T T'
    /\ (forall j, ~ onParentChain T self j -> T' !! j = T !! j)
    /\ (forall a, onParentChain T self a -> cachedRange T' a = Some noRange).
Proof.
  intros Hwf Hpp Hself Hlt.
  destruct (clearCachedSourceRangesOfAncestors_returns fuel T self Hwf Hpp Hself Hlt)
    as [T' Hrun].
  exists T'. split; [exact Hrun|].
  exact (clearCachedSourceRangesOfAncestors_chain fuel T self T' Hrun).
Qed.

Lemma clearCachedSourceRangesOfAncestors_total_witness :
  exists T',
    clearCachedSourceRangesOfAncestors 2 fileTree 1%nat = Ok T'
    /\ sameStructure fileTree T'
    /\ (forall j, ~ onParentChain fileTree 1%nat j -> T' !! j = fileTree !! j)
    /\ (forall a, onParentChain fileTree 1%nat a -> cachedRange T' a = Some noRange).
Proof.
  apply (clearCachedSourceRangesOfAncestors_total 2 fileTree 1%nat).
  - unfold wellFormed. compute_done.
  - unfold parentsPresent. compute_done.
  - exists firstStmtScope. reflexivity.
  - lia.
Defined.

(** On the file tree the invalidation from the first statement empties the
    caches of that statement and of the file and keeps the second
    statement. *)
Example fileTree_cleared :
  clearCachedSourceRangesOfAncestors 2 fileTree 1%nat = Ok fileTreeCleared
  /\ cachedRange fileTreeCleared 0%nat = Some noRange
  /\ cachedRange fileTreeCleared 1%nat = Some noRange
  /\ fileTreeCleared !! 2%nat = fileTree !! 2%nat.
Proof. repeat split; vm_compute; reflexivity. Qed.

Lemma cacheSourceRangesOfAncestors_local_witness :
  cacheSourceRangesOfAncestors 2 fileTreeCleared 1%nat
  = cacheSourceRangesOfAncestors 2 fileTree 1%nat.
Proof.
  assert (Hrun : clearCachedSourceRangesOfAncestors 2 fileTree 1%nat = Ok fileTreeCleared)
    by (vm_compute; reflexivity).
  destruct (clearCachedSourceRangesOfAncestors_chain 2 fileTree 1%nat fileTreeCleared Hrun)
    as (Hs & Hoff & _).
  apply (cacheSourceRangesOfAncestors_local 2 fileTree fileTreeCleared 1%nat);
    [unfold wellFormed; compute_done | exact Hs | exact Hoff].
Defined.

(** An invalidation does not change what the next caching pass from the
    same scope ends in. *)
Lemma cacheSourceRangesOfAncestors_after_clear fuel fuel' (T T' : ScopeTree) (self : ScopeId) :
  wellFormed T ->
  clearCachedSourceRangesOfAncestors fuel' T self = Ok T' ->
  cacheSourceRangesOfAncestors fuel T' self = cacheSourceRangesOfAncestors fuel T self.
Proof.
  intros Hwf Hclear.
  destruct (clearCachedSourceRangesOfAncestors_chain _ _ _ _ Hclear) as (Hs & Hoff & _).
  now apply cacheSourceRangesOfAncestors_agree.
Qed.

(** Caching, invalidating the same parent chain and caching again gives
    back the tree of the first pass. *)
Theorem recache_after_invalidation
    (fuel fuel' : nat) (T T1 T2 : ScopeTree) (self : ScopeId) :
  wellFormed T ->
  cacheSourceRangesOfAncestors fuel T self = Ok T1 ->
  clearCachedSourceRangesOfAncestors fuel' T1 self = Ok T2 ->
  cacheSourceRangesOfAncestors fuel T2 self = Ok T1.
Proof.
  intros Hwf Hpass Hclear.
  destruct (cacheSourceRangesOfAncestors_off_chain _ _ _ _ Hpass) as [Hs _].
  destruct (cacheSourceRangesOfAncestors_off_chain _ _ _ _ Hpass) as [_ Hoff].
  rewrite (cacheSourceRangesOfAncestors_after_clear fuel fuel' T1 T2 self
             (wellFormed_sameStructure _ _ Hs Hwf) Hclear).
  rewrite <- Hpass. now apply cacheSourceRangesOfAncestors_agree.
Qed.

Lemma recache_after_invalidation_witness :
  cacheSourceRangesOfAncestors 2 fileTreeCleared 1%nat = Ok fileTree.
Proof.
  apply (recache_after_invalidation 2 2 fileTreeUncached fileTree fileTreeCleared 1%nat);
    [unfold wellFormed; compute_done | vm_compute; reflexivity | vm_compute; reflexivity].
Defined.

(** After a caching pass the cached range of every scope on the parent
    chain is what a fresh recomputation gives. *)
Theorem cacheSourceRangesOfAncestors_fresh (fuel : nat) :
  forall (T : ScopeTree) (self : ScopeId) (T' : ScopeTree),
    wellFormed T ->
    cacheSourceRangesOfAncestors fuel T self = Ok T' ->
    forall a, onParentChain T self a ->
              exists r, cachedRange T' a = Some r
                        /\ getUncachedSourceRange T' a false = Ok r.
Proof.
  induction fuel as [|fuel IH]; intros T self T' Hwf Hrun a Hchain; [discriminate|].
  simpl in Hrun.
  destruct (cacheSourceRange T self) as [T1|] eqn:H1; [|discriminate]. simpl in Hrun.
  destruct (cacheSourceRange_inv _ _ _ H1) as (this & r & HT & Hr & HT1 & _).
  assert (Hs1 : sameStructure T T1) by (rewrite HT1; now apply sameStructure_insert).
  assert (Hself : T1 !! self = Some (setCachedSourceRange (Some r) this))
    by (rewrite HT1; apply lookup_insert_eq).
  assert (Hne1 : forall j, j <> self -> T1 !! j = T !! j)
    by (intros j Hj; rewrite HT1; apply lookup_insert_ne; congruence).
  pose proof (wellFormed_sameStructure _ _ Hs1 Hwf) as Hwf1.
  assert (Hr1 : getUncachedSourceRange T1 self false = Ok r).
  { rewrite <- Hr. apply getUncachedSourceRange_agree; [assumption|].
    intros this' c HT' Hc. apply Hne1.
    pose proof (wellFormed_child _ _ _ _ Hwf HT' Hc) as Hlt.
    intros Heq. rewrite Heq in Hlt. lia. }
  assert (Hc1 : cachedRange T1 self = Some r) by (unfold cachedRange; now rewrite Hself).
  clear HT1 H1.
  unfold deref in Hrun. rewrite Hself in Hrun. simpl in Hrun.
  destruct (parent this) as [p|] eqn:Hp.
  - destruct (onParentChain_inv _ _ _ Hchain) as [-> | (this' & p' & HT' & Hp' & Hrest)].
    + destruct (cacheSourceRangesOfAncestors_frame _ _ _ _ Hwf1 Hrun) as [Hs2 Hfar].
      pose proof (wellFormed_parent _ _ _ _ Hwf HT Hp) as Hlt.
      exists r. split.
      * rewrite <- Hc1. apply cachedRange_agree. now apply Hfar.
      * rewrite <- Hr1. apply getUncachedSourceRange_agree; [assumption|].
        intros this' c HT' Hc. apply Hfar.
        pose proof (wellFormed_child _ _ _ _ Hwf1 HT' Hc). lia.
    + rewrite HT in HT'. injection HT' as <-. rewrite Hp in Hp'. injection Hp' as <-.
      apply (IH T1 p T' Hwf1 Hrun a). now apply (onParentChain_sameStructure T).
  - injection Hrun as <-.
    destruct (onParentChain_inv _ _ _ Hchain) as [-> | (this' & p' & HT' & Hp' & _)].
    + now exists r.
    + rewrite HT in HT'. injection HT' as <-. congruence.
Qed.

Lemma cacheSourceRangesOfAncestors_fresh_witness :
  exists r, cachedRange fileTree 0%nat = Some r
            /\ getUncachedSourceRange fileTree 0%nat false = Ok r.
Proof.
  apply (cacheSourceRangesOfAncestors_fresh 2 fileTreeUncached 1%nat fileTree).
  - unfold wellFormed. compute_done.
  - vm_compute. reflexivity.
  - apply (chain_parent fileTreeUncached 1%nat (setCachedSourceRange None firstStmtScope)
             0%nat 0%nat); [reflexivity | reflexivity | apply chain_self].
Defined.

(** ** Accumulating ignored nodes *)

Lemma widen_comm a b : widen a b = widen b a.
Proof.
  rewrite !widen_min_max. f_equal; [apply minLoc_comm | apply maxLoc_comm].
Qed.

Lemma range_eq a b :
  Value (Start a) = Value (Start b) -> Value (End a) = Value (End b) -> a = b.
Proof.
  destruct a, b. simpl. intros Hs He. f_equal; now apply loc_eq.
Qed.

Lemma widen_values r other :
  Value (Start (widen r other)) = N.min (Value (Start r)) (Value (Start other))
  /\ Value (End (widen r other)) = N.max (Value (End r)) (Value (End other)).
Proof.
  unfold widen, isBeforeInBuffer. simpl.
  destruct (N.ltb_spec (Value (Start other)) (Value (Start r))),
           (N.ltb_spec (Value (End r)) (Value (End other))); lia.
Qed.

Lemma widen_assoc_swap p a b : widen (widen p a) b = widen (widen p b) a.
Proof.
  apply range_eq.
  - rewrite !(proj1 (widen_values _ _)). lia.
  - rewrite !(proj2 (widen_values _ _)). lia.
Qed.

(** The order in which two ignored nodes are reported to a scope does not
    matter. *)
Theorem widenSourceRangeForIgnoredASTNode_comm
    (isCreatedDirectly : ASTNode -> bool) (n1 n2 : ASTNode) (this : ASTScopeImpl) :
  widenSourceRangeForIgnoredASTNode isCreatedDirectly n2
    (widenSourceRangeForIgnoredASTNode isCreatedDirectly n1 this)
  = widenSourceRangeForIgnoredASTNode isCreatedDirectly n1
      (widenSourceRangeForIgnoredASTNode isCreatedDirectly n2 this).
Proof.
  unfold widenSourceRangeForIgnoredASTNode.
  destruct (isCreatedDirectly n1), (isCreatedDirectly n2); try reflexivity.
  set (r1 := getEffectiveSourceRange n1). set (r2 := getEffectiveSourceRange n2).
  unfold isInvalid.
  destruct (isValid r1) eqn:H1, (isValid r2) eqn:H2; simpl; try reflexivity.
  destruct this as [k par kids cache ign]. simpl.
  destruct (isValid ign) eqn:Hi; simpl.
  - assert (isValid (widen ign r1) = true) as -> by now apply widen_start_valid.
    assert (isValid (widen ign r2) = true) as -> by now apply widen_start_valid.
    simpl. unfold setSourceRangeOfIgnoredASTNodes. simpl.
    now rewrite widen_assoc_swap.
  - rewrite H1, H2. simpl. unfold setSourceRangeOfIgnoredASTNodes. simpl.
    now rewrite widen_comm.
Qed.

(** A call of the widener never shrinks the accumulated range: a valid
    accumulated range is contained in the new one, which stays valid, and so
    is the effective range of a node that is valid and not skipped. *)
Theorem widenSourceRangeForIgnoredASTNode_grows
    (isCreatedDirectly : ASTNode -> bool) (n : ASTNode) (this : ASTScopeImpl) :
  let after := sourceRangeOfIgnoredASTNodes
                 (widenSourceRangeForIgnoredASTNode isCreatedDirectly n this) in
  (isValid (sourceRangeOfIgnoredASTNodes this) = true ->
     isValid after = true /\ contains after (sourceRangeOfIgnoredASTNodes this))
  /\ (isCreatedDirectly n = false -> isValid (getEffectiveSourceRange n) = true ->
      isValid after = true /\ contains after (getEffectiveSourceRange n)).
Proof.
  unfold widenSourceRangeForIgnoredASTNode, isInvalid.
  set (r := getEffectiveSourceRange n). set (ign := sourceRangeOfIgnoredASTNodes this).
  pose proof (widen_contains_both ign r) as Hw.
  split.
  - intros Hi.
    destruct (isCreatedDirectly n);
      [fold ign; split; [assumption|]; unfold contains; lia|].
    destruct (isValid r) eqn:Hr; simpl;
      [|fold ign; split; [assumption|]; unfold contains; lia].
    rewrite Hi. simpl. split; [now apply widen_start_valid | unfold contains; lia].
  - intros Hc Hr. rewrite Hc, Hr. simpl. destruct (isValid ign) eqn:Hi; simpl.
    + split; [now apply widen_start_valid | unfold contains; lia].
    + split; [assumption | unfold contains; lia].
Qed.

Lemma widenSourceRangeForIgnoredASTNode_grows_witness :
  let this := widenSourceRangeForIgnoredASTNode nothingCreatedDirectly (ExprNode binaryExpr)
                firstStmtScope in
  let after := sourceRangeOfIgnoredASTNodes
                 (widenSourceRangeForIgnoredASTNode nothingCreatedDirectly
                    (ExprNode interpolatedExpr) this) in
  (isValid after = true /\ contains after (R 12 20))
  /\ (isValid after = true /\ contains after (R 5 25)).
Proof.
  pose proof (widenSourceRangeForIgnoredASTNode_grows nothingCreatedDirectly
                (ExprNode interpolatedExpr)
                (widenSourceRangeForIgnoredASTNode nothingCreatedDirectly
                   (ExprNode binaryExpr) firstStmtScope)) as [Hold Hnew].
  split; [apply Hold | apply Hnew]; reflexivity.
Defined.

(** ** The sibling check and invalid ranges *)

(** The check of the sibling order aborts whenever the cached range of the
    scope or of the sibling before it is not valid, wherever the ranges
    lie. *)
Theorem verifyThatThisNodeComeAfterItsPriorSibling_invalid
    (T : ScopeTree) (self prior p : ScopeId) (this : ASTScopeImpl) (r priorRange : SourceRange) :
  T !! self = Some this ->
  parent this = Some p ->
  priorSibling T self prior ->
  cachedRange T self = Some r ->
  cachedRange T prior = Some priorRange ->
  ~ validRange r \/ ~ validRange priorRange ->
  verifyThatThisNodeComeAfterItsPriorSibling T self
  = Fatal (Aborted (OutOfOrderNodes prior self p)).
Proof.
  intros HT Hp Hprior Hr Hpr Hinvalid.
  unfold verifyThatThisNodeComeAfterItsPriorSibling.
  rewrite (getPriorSibling_priorSibling _ _ _ Hprior). simpl.
  assert (Hprec : precedesInSource T prior self = Ok false).
  { unfold precedesInSource, hasValidSourceRange.
    rewrite (cachedRange_getSourceRange _ _ _ false Hpr),
            (cachedRange_getSourceRange _ _ _ false Hr). simpl.
    destruct (isValidLoc (Start priorRange) && isValidLoc (End priorRange)
              && negb (isBeforeInBuffer (End priorRange) (Start priorRange))) eqn:Hvp;
      [|reflexivity].
    simpl.
    destruct (isValidLoc (Start r) && isValidLoc (End r)
              && negb (isBeforeInBuffer (End r) (Start r))) eqn:Hvr; [|reflexivity].
    exfalso.
    rewrite !andb_true_iff, negb_true_iff, !isValidLoc_pos, isBeforeInBuffer_ge in Hvp, Hvr.
    unfold validRange in Hinvalid. tauto. }
  rewrite Hprec. simpl. unfold deref. rewrite HT. simpl. now rewrite Hp.
Qed.

(** ** Closures *)

(** For a closure with an [in] location the capture list scope ends where
    the parameter scope starts, the parameter scope ends where the body
    scope starts, and the brace statement of the body starts there too;
    without an [in] location the body scope is the whole closure and the
    brace statement keeps its own range. *)
Theorem closure_scopes_meet (expr : CaptureListExpr) (stmt : BraceStmt) :
  let c := captureClosureBody expr in
  (isValidLoc (closureInLoc c) = true ->
     exists params,
       ClosureParametersScope.getChildlessSourceRange c = Ok params
       /\ End (CaptureListScope.getChildlessSourceRange expr) = Start params
       /\ End params = Start (ClosureBodyScope.getChildlessSourceRange c)
       /\ Start (BraceStmtScope.getChildlessSourceRange (Some c) stmt) = End params
       /\ End (BraceStmtScope.getChildlessSourceRange (Some c) stmt) = braceEndLoc stmt)
  /\ (isValidLoc (closureInLoc c) = false ->
      ClosureBodyScope.getChildlessSourceRange c = closureSourceRange c
      /\ BraceStmtScope.getChildlessSourceRange (Some c) stmt = braceSourceRange stmt
      /\ exists f, ClosureParametersScope.getChildlessSourceRange c = Fatal f).
Proof.
  simpl. unfold ClosureParametersScope.getChildlessSourceRange,
    ClosureBodyScope.getChildlessSourceRange, BraceStmtScope.getChildlessSourceRange,
    CaptureListScope.getChildlessSourceRange.
  split; intros ->; simpl; eauto 10.
Qed.

Lemma closure_scopes_meet_witness :
  exists params,
    ClosureParametersScope.getChildlessSourceRange closureXY = Ok params
    /\ End (CaptureListScope.getChildlessSourceRange captureXY) = Start params
    /\ End params = Start (ClosureBodyScope.getChildlessSourceRange closureXY)
    /\ Start (BraceStmtScope.getChildlessSourceRange (Some closureXY) (mkBraceStmt (L 1) (L 40)))
       = End params
    /\ End (BraceStmtScope.getChildlessSourceRange (Some closureXY) (mkBraceStmt (L 1) (L 40)))
       = braceEndLoc (mkBraceStmt (L 1) (L 40)).
Proof.
  apply (proj1 (closure_scopes_meet captureXY (mkBraceStmt (L 1) (L 40)))). reflexivity.
Defined.

(** ** [while], [if] and [case] *)

Lemma WhileConditionalClauseScope_range_witness :
  WhileConditionalClauseScope.getChildlessSourceRange guardBool 0 = Ok (R 5 20).
Proof.
  apply (WhileConditionalClauseScope_range guardBool 0 (mkStmtConditionElement CK_Boolean (L 5))).
  reflexivity.
Defined.

(** The clause of an [if] starts at the location its condition element
    provides, or at the start of the [then] branch, and ends at the end of
    the [then] branch. *)
Theorem IfConditionalClauseScope_range
    (stmt : IfStmt) (index : nat) (cond : StmtConditionElement) :
  ifCond stmt !! index = Some cond ->
  IfConditionalClauseScope.getChildlessSourceRange stmt index
  = Ok (mkRange (default (braceStartLoc (ifThenStmt stmt))
                         (conditionStart (ifCond stmt) index))
                (braceEndLoc (ifThenStmt stmt))).
Proof.
  intros Hc. unfold IfConditionalClauseScope.getChildlessSourceRange.
  destruct (startLocAccordingToCondition_spec _ _ _ Hc) as (loc & -> & <-).
  simpl. unfold validOnly, isInvalidLoc. destruct (isValidLoc loc); reflexivity.
Qed.

Lemma IfConditionalClauseScope_range_witness :
  IfConditionalClauseScope.getChildlessSourceRange ifLet 0 = Ok (R 15 40).
Proof.
  apply (IfConditionalClauseScope_range ifLet 0 (mkStmtConditionElement CK_PatternBinding (L 7))).
  reflexivity.
Defined.

(** A pattern binding that is the last condition provides no start: the
    clause of a [while] or an [if] is then exactly the body, and the clause
    of a [guard] is the single location where the body starts. *)
Theorem last_pattern_binding_clause
    (conds : list StmtConditionElement) (body : BraceStmt) (index : nat)
    (cond : StmtConditionElement) :
  conds !! index = Some cond ->
  condKind cond = CK_PatternBinding ->
  length conds = S index ->
  WhileConditionalClauseScope.getChildlessSourceRange (mkLabeledConditionalStmt conds body) index
  = Ok (braceSourceRange body)
  /\ IfConditionalClauseScope.getChildlessSourceRange (mkIfStmt conds body) index
     = Ok (braceSourceRange body)
  /\ GuardConditionalClauseScope.getChildlessSourceRange
       (mkLabeledConditionalStmt conds body) index
     = Ok (rangeOfLoc (braceStartLoc body)).
Proof.
  intros Hc Hk Hlen.
  assert (Hstart : conditionStart conds index = None).
  { unfold conditionStart. rewrite Hc. simpl. rewrite Hk.
    rewrite (lookup_ge_None_2 conds (index + 1)%nat) by lia. reflexivity. }
  unfold WhileConditionalClauseScope.getChildlessSourceRange,
    IfConditionalClauseScope.getChildlessSourceRange,
    GuardConditionalClauseScope.getChildlessSourceRange. simpl.
  destruct (startLocAccordingToCondition_spec _ _ _ Hc) as (loc & -> & Hloc).
  rewrite Hstart in Hloc. unfold validOnly in Hloc. simpl. unfold isInvalidLoc.
  destruct (isValidLoc loc); [discriminate|]. now repeat split.
Qed.

Lemma last_pattern_binding_clause_witness :
  WhileConditionalClauseScope.getChildlessSourceRange whileLet 0 = Ok (R 15 40)
  /\ IfConditionalClauseScope.getChildlessSourceRange ifLet 0 = Ok (R 15 40)
  /\ GuardConditionalClauseScope.getChildlessSourceRange whileLet 0 = Ok (R 15 15).
Proof.
  apply (last_pattern_binding_clause [mkStmtConditionElement CK_PatternBinding (L 7)]
           (mkBraceStmt (L 15) (L 40)) 0 (mkStmtConditionElement CK_PatternBinding (L 7)));
    reflexivity.
Defined.

(** The scope of a [case] starts at the guard of the first label item that
    has one and ends at the end of the body; without any guard it is the
    body. *)
Theorem CaseStmtScope_range (stmt : CaseStmt) :
  (forall before guardStart after,
      caseLabelItemGuards stmt = before ++ Some guardStart :: after ->
      Forall (fun item => item = None) before ->
      CaseStmtScope.getChildlessSourceRange stmt
      = mkRange guardStart (braceEndLoc (caseBody stmt)))
  /\ (Forall (fun item => item = None) (caseLabelItemGuards stmt) ->
      CaseStmtScope.getChildlessSourceRange stmt = braceSourceRange (caseBody stmt)).
Proof.
  unfold CaseStmtScope.getChildlessSourceRange. split.
  - intros before guardStart after -> Hbefore.
    assert (CaseStmtScope.firstGuard (before ++ Some guardStart :: after) = Some guardStart)
      as ->; [|reflexivity].
    induction Hbefore as [|item before -> _ IH]; simpl; [reflexivity | exact IH].
  - intros Hnone.
    assert (CaseStmtScope.firstGuard (caseLabelItemGuards stmt) = None) as ->; [|reflexivity].
    induction Hnone as [|item items -> _ IH]; simpl; [reflexivity | exact IH].
Qed.

Lemma CaseStmtScope_range_witness :
  CaseStmtScope.getChildlessSourceRange caseWithGuard = R 9 30
  /\ CaseStmtScope.getChildlessSourceRange (mkCaseStmt [None; None] (mkBraceStmt (L 12) (L 30)))
     = R 12 30.
Proof.
  split.
  - apply (proj1 (CaseStmtScope_range caseWithGuard) [None] (L 9) []); [reflexivity|].
    repeat constructor.
  - apply (proj2 (CaseStmtScope_range (mkCaseStmt [None; None] (mkBraceStmt (L 12) (L 30))))).
    repeat constructor.
Defined.

Lemma verifyThatThisNodeComeAfterItsPriorSibling_invalid_witness :
  verifyThatThisNodeComeAfterItsPriorSibling fileTreeCleared 2%nat
  = Fatal (Aborted (OutOfOrderNodes 1%nat 2%nat 0%nat)).
Proof.
  apply (verifyThatThisNodeComeAfterItsPriorSibling_invalid fileTreeCleared 2%nat 1%nat 0%nat
           secondStmtScope (R 12 20) noRange); try reflexivity.
  - apply getPriorSibling_Some. reflexivity.
  - right. unfold validRange. simpl. lia.
Defined.

(** After the invalidation of the parent chain of the first statement, the
    caching of the second statement aborts. *)
Example cache_beside_invalidated_sibling :
  cacheSourceRange fileTreeCleared 2%nat = Fatal (Aborted (OutOfOrderNodes 1%nat 2%nat 0%nat)).
Proof. reflexivity. Qed.
